(** * cli-progress: a shallow embedding of [src/index.mjs]

    The engine returned by [createProgress] is modelled as a state machine.
    Everything the closures of one engine instance share (the spinner index,
    the [pct] variable of every handle, the active [setInterval] timers, the
    state of every command run) lives in a [World]; each JavaScript function
    becomes a function on worlds, and each callback the event loop may invoke
    (a timer firing, a chunk of child output, the child's close event) is an
    [Event] interpreted by [step].

    Numbers.  A JavaScript number is modelled by [number]: an exact rational,
    one of the two infinities, or NaN.  Arithmetic follows ECMAScript on the
    special values and is exact on rationals, so binary64 rounding and the
    sign of zero are idealised away.  Counters ([frameIdx], [frame],
    [completed]) are exact integers.

    Callbacks.  The functions the caller passes in ([parseProgress],
    [onOutput], [tolerateFailure], a [doneLabel] function) are functions of
    the caller's own state [E], which they may update; they return normally.
    [spawn] is a source of events; [chalk] and [Math.exp] are parameters.
    [yieldLoop] touches nothing of the engine and is left out. *)

From Stdlib Require Import ZArith QArith Qround Qminmax String Ascii List Lia Psatz Reals DecimalString.
From stdpp Require Import base option list gmap strings.

Set Default Proof Using "Type".

(** ** Numbers *)

Inductive number : Type :=
| Num (q : Q)
| PosInf
| NegInf
| NaN.

Module Number.

(** The infinity carrying the sign of a comparison with zero; a zero sign
    gives NaN (this is [0 * Infinity] and [0 / 0]). *)
Definition signed_inf (c : comparison) : number :=
  match c with
  | Gt => PosInf
  | Lt => NegInf
  | Eq => NaN
  end.

Definition sign (q : Q) : comparison := (q ?= 0)%Q.

Definition of_Z (z : Z) : number := Num (inject_Z z).
Definition of_nat (n : nat) : number := of_Z (Z.of_nat n).

Definition neg (x : number) : number :=
  match x with
  | Num q => Num (- q)
  | PosInf => NegInf
  | NegInf => PosInf
  | NaN => NaN
  end.

Definition add (x y : number) : number :=
  match x, y with
  | NaN, _ | _, NaN => NaN
  | Num a, Num b => Num (a + b)
  | PosInf, NegInf | NegInf, PosInf => NaN
  | PosInf, _ | _, PosInf => PosInf
  | NegInf, _ | _, NegInf => NegInf
  end.

Definition sub (x y : number) : number := add x (neg y).

Definition mul (x y : number) : number :=
  match x, y with
  | NaN, _ | _, NaN => NaN
  | Num a, Num b => Num (a * b)
  | Num a, PosInf | PosInf, Num a => signed_inf (sign a)
  | Num a, NegInf | NegInf, Num a => signed_inf (CompOpp (sign a))
  | PosInf, PosInf | NegInf, NegInf => PosInf
  | PosInf, NegInf | NegInf, PosInf => NegInf
  end.

(** A zero denominator counts as [+0]. *)
Definition div (x y : number) : number :=
  match x, y with
  | NaN, _ | _, NaN => NaN
  | Num a, Num b => if Qeq_bool b 0 then signed_inf (sign a) else Num (a / b)
  | Num _, (PosInf | NegInf) => Num 0
  | PosInf, Num b => if Qle_bool 0 b then PosInf else NegInf
  | NegInf, Num b => if Qle_bool 0 b then NegInf else PosInf
  | (PosInf | NegInf), (PosInf | NegInf) => NaN
  end.

(** [Math.min] and [Math.max]: NaN when either argument is NaN. *)
Definition min (x y : number) : number :=
  match x, y with
  | NaN, _ | _, NaN => NaN
  | NegInf, _ | _, NegInf => NegInf
  | PosInf, z | z, PosInf => z
  | Num a, Num b => Num (Qmin a b)
  end.

Definition max (x y : number) : number :=
  match x, y with
  | NaN, _ | _, NaN => NaN
  | PosInf, _ | _, PosInf => PosInf
  | NegInf, z | z, NegInf => z
  | Num a, Num b => Num (Qmax a b)
  end.

(** [Math.round]: the nearest integer, ties towards +Infinity. *)
Definition round (x : number) : number :=
  match x with
  | Num q => of_Z (Qfloor (q + (1 # 2)))
  | other => other
  end.

(** Truthiness of a number: [0] and NaN are falsy. *)
Definition truthy (x : number) : bool :=
  match x with
  | Num q => negb (Qeq_bool q 0)
  | PosInf | NegInf => true
  | NaN => false
  end.

(** [ToIntegerOrInfinity], as applied by [String.prototype.repeat] to its
    count: NaN becomes 0 and a rational is truncated towards zero. *)
Definition to_integer (x : number) : number :=
  match x with
  | Num q => of_Z (if Qle_bool 0 q then Qfloor q else Qceiling q)
  | NaN => of_Z 0
  | other => other
  end.

(** Number-to-string conversion of an integral value (the engine only prints
    results of [Math.round]); decimal digits, as JavaScript prints integers
    below 10^21. *)
Definition to_string (x : number) : string :=
  match x with
  | Num q => NilZero.string_of_int (Z.to_int (Qfloor q))
  | PosInf => "Infinity"
  | NegInf => "-Infinity"
  | NaN => "NaN"
  end.

(** Equality of numbers as values: rationals are compared by [Qeq]. *)
Definition eqv (x y : number) : Prop :=
  match x, y with
  | Num a, Num b => (a == b)%Q
  | PosInf, PosInf | NegInf, NegInf | NaN, NaN => True
  | _, _ => False
  end.

End Number.

(** ** Strings *)

Definition CR : string := String "013"%char EmptyString.
Definition LF : string := String "010"%char EmptyString.
Definition ESC : string := String "027"%char EmptyString.

(** ["\r\x1b[2K"]: carriage return, then the ANSI erase-entire-line sequence. *)
Definition ERASE_LINE : string := ESC +:+ "[2K".
Definition CR_ERASE_LINE : string := CR +:+ ERASE_LINE.

Fixpoint repeat_string (s : string) (n : nat) : string :=
  match n with
  | O => EmptyString
  | S n' => s +:+ repeat_string s n'
  end.

(** The count of [String.prototype.repeat] raises a RangeError when, after
    [ToIntegerOrInfinity], it is negative or infinite. *)
Definition repeat_range_error (count : number) : bool :=
  match Number.to_integer count with
  | Num q => negb (Qle_bool 0 q)
  | PosInf | NegInf => true
  | NaN => false
  end.

(** [s.repeat(count)] for a count that raises no RangeError. *)
Definition String_repeat (s : string) (count : number) : string :=
  match Number.to_integer count with
  | Num q => repeat_string s (Z.to_nat (Qfloor q))
  | _ => EmptyString
  end.

(** [hay.includes(needle)] *)
Fixpoint String_includes (needle hay : string) : bool :=
  String.prefix needle hay
  || match hay with
     | EmptyString => false
     | String _ hay' => String_includes needle hay'
     end.

(** *** [String.prototype.trim]

    Strings are UTF-8 byte sequences; the white space and line terminators
    that [trim] strips are listed by their encodings. *)
Definition bytes (l : list nat) : string :=
  string_of_list_ascii (map ascii_of_nat l).

Definition white_space : list string :=
  map bytes
    [ [9]; [10]; [11]; [12]; [13]; [32];          (* TAB LF VT FF CR SP *)
      [194; 160];                                  (* U+00A0 *)
      [225; 154; 128];                             (* U+1680 *)
      [226; 128; 128]; [226; 128; 129]; [226; 128; 130]; [226; 128; 131];
      [226; 128; 132]; [226; 128; 133]; [226; 128; 134]; [226; 128; 135];
      [226; 128; 136]; [226; 128; 137]; [226; 128; 138];  (* U+2000..U+200A *)
      [226; 128; 168]; [226; 128; 169];            (* U+2028 U+2029 *)
      [226; 128; 175];                             (* U+202F *)
      [226; 129; 159];                             (* U+205F *)
      [227; 128; 128];                             (* U+3000 *)
      [239; 187; 191] ].                           (* U+FEFF *)

Fixpoint drop_prefix (p s : string) : option string :=
  match p, s with
  | EmptyString, _ => Some s
  | String a p', String b s' => if Ascii.eqb a b then drop_prefix p' s' else None
  | String _ _, EmptyString => None
  end.

(** The rest of [s] after one leading character of [chars], if it has one. *)
Fixpoint drop_one (chars : list string) (s : string) : option string :=
  match chars with
  | [] => None
  | c :: chars' =>
      match drop_prefix c s with
      | Some rest => Some rest
      | None => drop_one chars' s
      end
  end.

Fixpoint drop_leading (chars : list string) (fuel : nat) (s : string) : string :=
  match fuel with
  | O => s
  | S fuel' =>
      match drop_one chars s with
      | Some rest => drop_leading chars fuel' rest
      | None => s
      end
  end.

Definition trimStart (s : string) : string :=
  drop_leading white_space (String.length s) s.

Definition trimEnd (s : string) : string :=
  String.rev (drop_leading (map String.rev white_space) (String.length s) (String.rev s)).

Definition trim (s : string) : string := trimEnd (trimStart s).

(** A string is truthy when it is not empty. *)
Definition string_truthy (s : string) : bool :=
  match s with
  | EmptyString => false
  | String _ _ => true
  end.

(** ** Collaborators and configuration *)

(** The text-styling capability ([chalk]): only these five styles are used. *)
Record Chalk : Type := {
  cyan : string -> string;
  dim : string -> string;
  green : string -> string;
  red : string -> string;
  yellow : string -> string
}.

(** chalk with colour support off leaves the text as it is. *)
Definition chalk_plain : Chalk :=
  {| cyan := fun s => s; dim := fun s => s; green := fun s => s;
     red := fun s => s; yellow := fun s => s |}.

(** chalk on a colour terminal wraps a non-empty text in SGR sequences. *)
Definition sgr (on off : string) (s : string) : string :=
  if string_truthy s
  then ESC +:+ "[" +:+ on +:+ "m" +:+ s +:+ ESC +:+ "[" +:+ off +:+ "m"
  else s.

Definition chalk_ansi : Chalk :=
  {| cyan := sgr "36" "39"; dim := sgr "2" "22"; green := sgr "32" "39";
     red := sgr "31" "39"; yellow := sgr "33" "39" |}.

(** The options of [createProgress]. *)
Record Options : Type := {
  barWidth : nat;
  indent : nat;
  filledChar : string;
  emptyChar : string;
  spinnerFrames : list string;
  renderInterval : Z;
  estimateBuffer : Q
}.

Definition default_options : Options :=
  {| barWidth := 24;
     indent := 4;
     filledChar := "━";
     emptyChar := "─";
     spinnerFrames := ["⠋"; "⠙"; "⠹"; "⠸"; "⠼"; "⠴"; "⠦"; "⠧"; "⠇"; "⠏"];
     renderInterval := 80;
     estimateBuffer := 15 # 100 |}.

(** What [parseProgress] may return. *)
Inductive Parsed : Type :=
| PNull
| PUndefined
| PNumber (v : number).

(** The error a failed run rejects with:
    [new Error(`Command failed with exit code ${code}`)]. *)
Inductive Error : Type :=
| CommandFailed (exitCode : Z).

Definition error_message (e : Error) : string :=
  match e with
  | CommandFailed code =>
      "Command failed with exit code " +:+ NilZero.string_of_int (Z.to_int code)
  end.

Inductive Promise : Type :=
| Pending
| Fulfilled
| Rejected (e : Error).

(** What a handle returned by [start] closes over: its [pct] variable and the
    id of its render timer. *)
Record Handle : Type := {
  h_pct : nat;
  h_timer : nat
}.

(** One write to the terminal. *)
Inductive Output : Type :=
| StdoutWrite (text : string)       (* process.stdout.write(text) *)
| ConsoleError (text : string).     (* console.error(text) *)

(** Invocations of the caller's callbacks and of [spawn], in order. *)
Inductive Call : Type :=
| CallSpawn (command : string) (cwd : option string)
| CallParseProgress (text : string)
| CallOnOutput (text : string)
| CallTolerateFailure
| CallDoneLabel.

Definition totalFrames : nat := 8.
Definition snapInterval : Z := 30.
Definition sampleInterval : Z := 200.

(** ** The engine *)

Section Engine.

(** The caller's own state, which its callbacks read and update. *)
Context {E : Type}.

Variable chalk : Chalk.
Variable options : Options.

(** [Math.exp] on a rational argument (a platform primitive). *)
Variable Math_exp_rational : Q -> Q.

Definition Math_exp (x : number) : number :=
  match x with
  | Num q => Num (Math_exp_rational q)
  | PosInf => PosInf
  | NegInf => Num 0
  | NaN => NaN
  end.

(** *** Callbacks of the caller *)

(** What [onOutput(text, bar)] does with the bar it is given, ending with the
    caller's state as the callback leaves it. *)
Inductive BarProg : Type :=
| Return (user' : E)
| Increment (k : BarProg)                 (* bar.increment() *)
| SetPct (v : number) (k : BarProg)       (* bar.setPct(v) *)
| GetPct (k : number -> BarProg).         (* bar.getPct() *)

(** [doneLabel]: a string, or a zero-argument function. *)
Inductive DoneLabel : Type :=
| DoneString (s : string)
| DoneFunction (f : E -> E * string).

Record EstimatedOptions : Type := {
  e_label : string;
  e_command : string;
  e_estimatedMs : number;
  e_cwd : option string;
  e_doneLabel : option DoneLabel;
  e_tolerateFailure : option (E -> E * bool)
}.

Record TrackedOptions : Type := {
  t_label : string;
  t_command : string;
  t_cwd : option string;
  t_total : option number;
  t_onOutput : option (string -> E -> BarProg);
  t_parseProgress : option (string -> E -> E * Parsed);
  t_doneLabel : option DoneLabel;
  t_tolerateFailure : option (E -> E * bool)
}.

(** *** State *)

(** The closures handed to [setInterval], with the variables they capture. *)
Inductive Callback : Type :=
| RenderTick (label : string) (cell : nat)
    (* start: () => paint(label, pct) *)
| SampleTick (cell : nat) (startTime : Z) (adjustedMs : number)
    (* runEstimated: pctInterval *)
| SnapTick (label : string) (currentPct : number) (finalLabel : option string)
           (frame : nat) (waiter : option nat).
    (* snapTo100: interval; [waiter] is the run awaiting the snap *)

Record Timer : Type := {
  timer_callback : Callback;
  timer_delay : Z
}.

Inductive Mode : Type :=
| Estimated (pctInterval : nat)
| Tracked (total : option number)
          (onOutput : option (string -> E -> BarProg))
          (parseProgress : option (string -> E -> E * Parsed)).

(** The variables one call of [runEstimated] or [runTracked] closes over,
    with the state of the promise it returned. *)
Record Run : Type := {
  run_label : string;
  run_render : Handle;
  run_mode : Mode;
  run_completed : nat;
  run_stderr : string;
  run_doneLabel : option DoneLabel;
  run_tolerateFailure : option (E -> E * bool);
  run_child : bool;                (* the child has not closed yet *)
  run_promise : Promise
}.

Record World : Type := {
  frameIdx : nat;
  now : Z;                         (* Date.now() *)
  user : E;
  output : list Output;            (* terminal writes, oldest first *)
  pcts : gmap nat number;          (* the [pct] variable of each handle *)
  timers : gmap nat Timer;         (* active intervals *)
  runs : gmap nat Run;
  next : nat;                      (* next fresh id *)
  trace : list Call
}.

Definition set_frameIdx (v : nat) (w : World) : World :=
  {| frameIdx := v; now := now w; user := user w; output := output w;
     pcts := pcts w; timers := timers w; runs := runs w; next := next w;
     trace := trace w |}.
Definition set_now (v : Z) (w : World) : World :=
  {| frameIdx := frameIdx w; now := v; user := user w; output := output w;
     pcts := pcts w; timers := timers w; runs := runs w; next := next w;
     trace := trace w |}.
Definition set_user (v : E) (w : World) : World :=
  {| frameIdx := frameIdx w; now := now w; user := v; output := output w;
     pcts := pcts w; timers := timers w; runs := runs w; next := next w;
     trace := trace w |}.
Definition set_output (v : list Output) (w : World) : World :=
  {| frameIdx := frameIdx w; now := now w; user := user w; output := v;
     pcts := pcts w; timers := timers w; runs := runs w; next := next w;
     trace := trace w |}.
Definition set_pcts (v : gmap nat number) (w : World) : World :=
  {| frameIdx := frameIdx w; now := now w; user := user w; output := output w;
     pcts := v; timers := timers w; runs := runs w; next := next w;
     trace := trace w |}.
Definition set_timers (v : gmap nat Timer) (w : World) : World :=
  {| frameIdx := frameIdx w; now := now w; user := user w; output := output w;
     pcts := pcts w; timers := v; runs := runs w; next := next w;
     trace := trace w |}.
Definition set_runs (v : gmap nat Run) (w : World) : World :=
  {| frameIdx := frameIdx w; now := now w; user := user w; output := output w;
     pcts := pcts w; timers := timers w; runs := v; next := next w;
     trace := trace w |}.
Definition set_next (v : nat) (w : World) : World :=
  {| frameIdx := frameIdx w; now := now w; user := user w; output := output w;
     pcts := pcts w; timers := timers w; runs := runs w; next := v;
     trace := trace w |}.
Definition set_trace (v : list Call) (w : World) : World :=
  {| frameIdx := frameIdx w; now := now w; user := user w; output := output w;
     pcts := pcts w; timers := timers w; runs := runs w; next := next w;
     trace := v |}.

Definition set_run_completed (v : nat) (r : Run) : Run :=
  {| run_label := run_label r; run_render := run_render r; run_mode := run_mode r;
     run_completed := v; run_stderr := run_stderr r;
     run_doneLabel := run_doneLabel r; run_tolerateFailure := run_tolerateFailure r;
     run_child := run_child r; run_promise := run_promise r |}.
Definition set_run_stderr (v : string) (r : Run) : Run :=
  {| run_label := run_label r; run_render := run_render r; run_mode := run_mode r;
     run_completed := run_completed r; run_stderr := v;
     run_doneLabel := run_doneLabel r; run_tolerateFailure := run_tolerateFailure r;
     run_child := run_child r; run_promise := run_promise r |}.
Definition set_run_child (v : bool) (r : Run) : Run :=
  {| run_label := run_label r; run_render := run_render r; run_mode := run_mode r;
     run_completed := run_completed r; run_stderr := run_stderr r;
     run_doneLabel := run_doneLabel r; run_tolerateFailure := run_tolerateFailure r;
     run_child := v; run_promise := run_promise r |}.
Definition set_run_promise (v : Promise) (r : Run) : Run :=
  {| run_label := run_label r; run_render := run_render r; run_mode := run_mode r;
     run_completed := run_completed r; run_stderr := run_stderr r;
     run_doneLabel := run_doneLabel r; run_tolerateFailure := run_tolerateFailure r;
     run_child := run_child r; run_promise := v |}.

(** The engine as [createProgress] leaves it: [frameIdx = 0], nothing
    written, no timer, no run. *)
Definition createProgress (t0 : Z) (u : E) : World :=
  {| frameIdx := 0; now := t0; user := u; output := []; pcts := ∅;
     timers := ∅; runs := ∅; next := 0; trace := [] |}.

Definition write (text : string) (w : World) : World :=
  set_output (output w ++ [StdoutWrite text]) w.

Definition console_error (text : string) (w : World) : World :=
  set_output (output w ++ [ConsoleError (text +:+ LF)]) w.

Definition log (c : Call) (w : World) : World :=
  set_trace (trace w ++ [c]) w.

Definition setInterval (cb : Callback) (delay : Z) (w : World) : nat * World :=
  let id := next w in
  (id, set_next (S id)
         (set_timers (<[id := {| timer_callback := cb; timer_delay := delay |}]> (timers w)) w)).

Definition clearInterval (id : nat) (w : World) : World :=
  set_timers (delete id (timers w)) w.

(** *** Rendering *)

Definition pad : string := repeat_string " " (indent options).

Definition clamp (pct : number) : number :=
  Number.max (Number.of_Z 0) (Number.min (Number.of_Z 1) pct).

(** [filled] and [barWidth - filled] of [renderBar]. *)
Definition filledCount (pct : number) : number :=
  Number.round (Number.mul (Number.of_nat (barWidth options)) (clamp pct)).

Definition emptyCount (pct : number) : number :=
  Number.sub (Number.of_nat (barWidth options)) (filledCount pct).

Definition renderBar (pct : number) : string :=
  cyan chalk (String_repeat (filledChar options) (filledCount pct))
  +:+ dim chalk (String_repeat (emptyChar options) (emptyCount pct)).

(** [spinnerFrames[i % spinnerFrames.length]], as text: a missing element
    prints as [undefined]. *)
Definition spinner_frame (i : nat) : string :=
  default "undefined" (spinnerFrames options !! (i mod length (spinnerFrames options))).

(** The line [paint] writes when the spinner index is [idx]. *)
Definition paint_text (idx : nat) (label : string) (pct : number) : string :=
  let pctStr :=
    Number.to_string (Number.round (Number.mul pct (Number.of_Z 100))) +:+ "%" in
  let frame := cyan chalk (spinner_frame idx) in
  CR_ERASE_LINE +:+ pad +:+ frame +:+ " " +:+ label +:+ "  "
    +:+ renderBar pct +:+ "  " +:+ dim chalk pctStr.

Definition paint (label : string) (pct : number) (w : World) : World :=
  write (paint_text (frameIdx w) label pct) (set_frameIdx (S (frameIdx w)) w).

(** *** Static final states *)

Definition succeed_text (label : string) : string :=
  CR_ERASE_LINE +:+ pad +:+ green chalk "✓" +:+ " " +:+ label +:+ LF.
Definition fail_text (label : string) : string :=
  CR_ERASE_LINE +:+ pad +:+ red chalk "✖" +:+ " " +:+ label +:+ LF.
Definition info_text (label : string) : string :=
  pad +:+ dim chalk "○" +:+ " " +:+ label +:+ LF.
Definition warn_text (label : string) : string :=
  pad +:+ yellow chalk "⚠" +:+ " " +:+ label +:+ LF.

Definition succeed (label : string) (w : World) : World := write (succeed_text label) w.
Definition fail (label : string) (w : World) : World := write (fail_text label) w.
Definition info (label : string) (w : World) : World := write (info_text label) w.
Definition warn (label : string) (w : World) : World := write (warn_text label) w.

(** *** Animated bar *)

Definition getPct_cell (cell : nat) (w : World) : number :=
  default (Number.of_Z 0) (pcts w !! cell).

Definition setPct_cell (cell : nat) (v : number) (w : World) : World :=
  set_pcts (<[cell := v]> (pcts w)) w.

(** [start(label, initialPct)]: the handle, and the world after the first
    frame. *)
Definition start (label : string) (initialPct : number) (w : World) : Handle * World :=
  let cell := next w in
  let w := set_next (S cell) (setPct_cell cell initialPct w) in
  let '(id, w) := setInterval (RenderTick label cell) (renderInterval options) w in
  let w := paint label (getPct_cell cell w) w in
  ({| h_pct := cell; h_timer := id |}, w).

Definition setPct (h : Handle) (v : number) (w : World) : World :=
  setPct_cell (h_pct h) v w.
Definition getPct (h : Handle) (w : World) : number :=
  getPct_cell (h_pct h) w.
Definition stop (h : Handle) (w : World) : World :=
  clearInterval (h_timer h) w.

(** [snapTo100(label, currentPct, finalLabel)]; [waiter] is the run whose
    close handler awaits the returned promise. *)
Definition snapTo100 (label : string) (currentPct : number)
           (finalLabel : option string) (waiter : option nat) (w : World) : nat * World :=
  setInterval (SnapTick label currentPct finalLabel 0 waiter) snapInterval w.

(** [finalLabel || label] *)
Definition or_label (finalLabel : option string) (label : string) : string :=
  match finalLabel with
  | Some s => if string_truthy s then s else label
  | None => label
  end.

Definition settle (rid : nat) (p : Promise) (w : World) : World :=
  set_runs (alter (set_run_promise p) rid (runs w)) w.

Definition snap_ratio (currentPct : number) (frame : nat) : number :=
  Number.add currentPct
    (Number.mul (Number.sub (Number.of_Z 1) currentPct)
                (Number.div (Number.of_nat frame) (Number.of_nat totalFrames))).

(** One firing of the interval of [snapTo100], whose id is [id]. *)
Definition snap_tick (id : nat) (delay : Z) (label : string) (currentPct : number)
           (finalLabel : option string) (frame : nat) (waiter : option nat)
           (w : World) : World :=
  let frame := S frame in
  let w := set_timers
             (<[id := {| timer_callback := SnapTick label currentPct finalLabel frame waiter;
                         timer_delay := delay |}]> (timers w)) w in
  let w := paint label (snap_ratio currentPct frame) w in
  if (totalFrames <=? frame)%nat then
    let w := clearInterval id w in
    let w := succeed (or_label finalLabel label) w in
    match waiter with
    | Some rid => settle rid Fulfilled w       (* await snapTo100(...); resolve() *)
    | None => w
    end
  else w.

(** One firing of [pctInterval]. *)
Definition sample_tick (cell : nat) (startTime : Z) (adjustedMs : number) (w : World) : World :=
  let elapsed := Number.of_Z (now w - startTime) in
  setPct_cell cell
    (Number.mul (Num (9 # 10))
       (Number.sub (Number.of_Z 1)
          (Math_exp (Number.mul (Num (- (5 # 2))) (Number.div elapsed adjustedMs)))))
    w.

(** The timer [id] fires; a cleared timer never does. *)
Definition fire (id : nat) (w : World) : World :=
  match timers w !! id with
  | None => w
  | Some t =>
      match timer_callback t with
      | RenderTick label cell => paint label (getPct_cell cell w) w
      | SampleTick cell startTime adjustedMs => sample_tick cell startTime adjustedMs w
      | SnapTick label currentPct finalLabel frame waiter =>
          snap_tick id (timer_delay t) label currentPct finalLabel frame waiter w
      end
  end.

(** *** Command runners *)

Definition new_run (r : Run) (w : World) : nat * World :=
  let rid := next w in
  (rid, set_next (S rid) (set_runs (<[rid := r]> (runs w)) w)).

Definition runEstimated (o : EstimatedOptions) (w : World) : nat * World :=
  let adjustedMs :=
    Number.mul (e_estimatedMs o)
               (Number.add (Number.of_Z 1) (Num (estimateBuffer options))) in
  let startTime := now w in
  let '(render, w) := start (e_label o) (Number.of_Z 0) w in
  let '(pctInterval, w) :=
    setInterval (SampleTick (h_pct render) startTime adjustedMs) sampleInterval w in
  let w := log (CallSpawn (e_command o) (e_cwd o)) w in
  new_run {| run_label := e_label o; run_render := render;
             run_mode := Estimated pctInterval; run_completed := 0;
             run_stderr := EmptyString; run_doneLabel := e_doneLabel o;
             run_tolerateFailure := e_tolerateFailure o;
             run_child := true; run_promise := Pending |} w.

Definition runTracked (o : TrackedOptions) (w : World) : nat * World :=
  let '(render, w) := start (t_label o) (Number.of_Z 0) w in
  let w := log (CallSpawn (t_command o) (t_cwd o)) w in
  new_run {| run_label := t_label o; run_render := render;
             run_mode := Tracked (t_total o) (t_onOutput o) (t_parseProgress o);
             run_completed := 0;
             run_stderr := EmptyString; run_doneLabel := t_doneLabel o;
             run_tolerateFailure := t_tolerateFailure o;
             run_child := true; run_promise := Pending |} w.

(** [bar.increment()] of the run [rid]. *)
Definition increment (rid : nat) (w : World) : World :=
  match runs w !! rid with
  | None => w
  | Some r =>
      let completed := S (run_completed r) in
      let w := set_runs (<[rid := set_run_completed completed r]> (runs w)) w in
      match run_mode r with
      | Tracked (Some total) _ _ =>
          if Number.truthy total
          then setPct (run_render r) (Number.div (Number.of_nat completed) total) w
          else w
      | _ => w
      end
  end.

(** [onOutput(text, bar)] running against the bar of the run [rid]. *)
Fixpoint run_bar (rid : nat) (render : Handle) (p : BarProg) (w : World) : World :=
  match p with
  | Return u => set_user u w
  | Increment k => run_bar rid render k (increment rid w)
  | SetPct v k => run_bar rid render k (setPct render v w)
  | GetPct k => run_bar rid render (k (getPct render w)) w
  end.

Definition append_stderr (rid : nat) (text : string) (w : World) : World :=
  set_runs (alter (fun r => set_run_stderr (run_stderr r +:+ text) r) rid (runs w)) w.

(** The three statements of [processData(text, isStderr)], in order:
    [if (isStderr) allStderr += text] *)
Definition collect_stderr (rid : nat) (text : string) (isStderr : bool) (w : World) : World :=
  if isStderr then append_stderr rid text w else w.

(** [if (parseProgress) { const pct = parseProgress(text);
     if (pct !== null && pct !== undefined) render.setPct(pct); }] *)
Definition apply_parseProgress (render : Handle)
           (parseProgress : option (string -> E -> E * Parsed))
           (text : string) (w : World) : World :=
  match parseProgress with
  | Some parse =>
      let w := log (CallParseProgress text) w in
      let '(u, pct) := parse text (user w) in
      let w := set_user u w in
      match pct with
      | PNumber v => setPct render v w
      | PNull | PUndefined => w
      end
  | None => w
  end.

(** [if (onOutput) onOutput(text, bar)] *)
Definition apply_onOutput (rid : nat) (render : Handle)
           (onOutput : option (string -> E -> BarProg))
           (text : string) (w : World) : World :=
  match onOutput with
  | Some observe =>
      let w := log (CallOnOutput text) w in
      run_bar rid render (observe text (user w)) w
  | None => w
  end.

Definition processData (rid : nat) (render : Handle)
           (onOutput : option (string -> E -> BarProg))
           (parseProgress : option (string -> E -> E * Parsed))
           (text : string) (isStderr : bool) (w : World) : World :=
  apply_onOutput rid render onOutput text
    (apply_parseProgress render parseProgress text
       (collect_stderr rid text isStderr w)).

(** A ["data"] event of the child of the run [rid]. *)
Definition on_data (rid : nat) (text : string) (isStderr : bool) (w : World) : World :=
  match runs w !! rid with
  | None => w
  | Some r =>
      if run_child r then
        match run_mode r with
        | Estimated _ => if isStderr then append_stderr rid text w else w
        | Tracked _ onOutput parseProgress =>
            processData rid (run_render r) onOutput parseProgress text isStderr w
        end
      else w
  end.

(** [code === 0 || (tolerateFailure && tolerateFailure())] *)
Definition exit_ok (code : Z) (tolerateFailure : option (E -> E * bool))
           (w : World) : bool * World :=
  if (code =? 0)%Z then (true, w)
  else match tolerateFailure with
       | Some tolerate =>
           let w := log CallTolerateFailure w in
           let '(u, b) := tolerate (user w) in
           (b, set_user u w)
       | None => (false, w)
       end.

(** [typeof doneLabel === "function" ? doneLabel() : doneLabel] *)
Definition resolve_doneLabel (doneLabel : option DoneLabel) (w : World)
  : option string * World :=
  match doneLabel with
  | Some (DoneFunction f) =>
      let w := log CallDoneLabel w in
      let '(u, s) := f (user w) in
      (Some s, set_user u w)
  | Some (DoneString s) => (Some s, w)
  | None => (None, w)
  end.

(** The ["close"] event of the child of the run [rid]. *)
Definition on_close (rid : nat) (code : Z) (w : World) : World :=
  match runs w !! rid with
  | None => w
  | Some r =>
      if run_child r then
        let w := set_runs (<[rid := set_run_child false r]> (runs w)) w in
        let w := match run_mode r with
                 | Estimated pctInterval => clearInterval pctInterval w
                 | Tracked _ _ _ => w
                 end in
        let w := stop (run_render r) w in
        let '(ok, w) := exit_ok code (run_tolerateFailure r) w in
        if ok then
          let '(final, w) := resolve_doneLabel (run_doneLabel r) w in
          snd (snapTo100 (run_label r) (getPct (run_render r) w) final (Some rid) w)
        else
          let w := fail (run_label r) w in
          let w := if string_truthy (trim (run_stderr r))
                   then console_error (red chalk (LF +:+ trim (run_stderr r) +:+ LF)) w
                   else w in
          settle rid (Rejected (CommandFailed code)) w
      else w
  end.

(** *** The event loop *)

Inductive Event : Type :=
(* calls of the public operations *)
| DoPaint (label : string) (pct : number)
| DoSucceed (label : string)
| DoFail (label : string)
| DoInfo (label : string)
| DoWarn (label : string)
| DoStart (label : string) (initialPct : option number)
| DoSetPct (h : Handle) (v : number)
| DoStop (h : Handle)
| DoSnapTo100 (label : string) (currentPct : number) (finalLabel : option string)
| DoRunEstimated (o : EstimatedOptions)
| DoRunTracked (o : TrackedOptions)
(* callbacks invoked by the event loop *)
| Fire (id : nat)
| ChildStdout (rid : nat) (text : string)
| ChildStderr (rid : nat) (text : string)
| ChildClose (rid : nat) (code : Z)
(* the rest of the program *)
| Elapse (ms : Z)
| UserCode (f : E -> E).

Definition step (e : Event) (w : World) : World :=
  match e with
  | DoPaint label pct => paint label pct w
  | DoSucceed label => succeed label w
  | DoFail label => fail label w
  | DoInfo label => info label w
  | DoWarn label => warn label w
  | DoStart label initialPct => snd (start label (default (Number.of_Z 0) initialPct) w)
  | DoSetPct h v => setPct h v w
  | DoStop h => stop h w
  | DoSnapTo100 label currentPct finalLabel =>
      snd (snapTo100 label currentPct finalLabel None w)
  | DoRunEstimated o => snd (runEstimated o w)
  | DoRunTracked o => snd (runTracked o w)
  | Fire id => fire id w
  | ChildStdout rid text => on_data rid text false w
  | ChildStderr rid text => on_data rid text true w
  | ChildClose rid code => on_close rid code w
  | Elapse ms => set_now (now w + ms) w
  | UserCode f => set_user (f (user w)) w
  end.

Definition exec (events : list Event) (w : World) : World :=
  fold_left (fun w e => step e w) events w.

(** A sequence of calls of [paint], from whichever bars are being rendered. *)
Fixpoint paint_calls (calls : list (string * number)) (w : World) : World :=
  match calls with
  | [] => w
  | (label, pct) :: calls' => paint_calls calls' (paint label pct w)
  end.

(** The lines such a sequence writes when it starts at spinner index [idx]. *)
Fixpoint paint_lines (idx : nat) (calls : list (string * number)) : list Output :=
  match calls with
  | [] => []
  | (label, pct) :: calls' =>
      StdoutWrite (paint_text idx label pct) :: paint_lines (S idx) calls'
  end.

(** *** Vocabulary of the statements below *)

(** The ["data"] event that delivers one chunk: the text, and whether it came
    on stderr. *)
Definition chunk_event (rid : nat) (chunk : string * bool) : Event :=
  if snd chunk then ChildStderr rid (fst chunk) else ChildStdout rid (fst chunk).

(** The most recent value that is neither [null] nor [undefined] among what
    [parse] returns on [chunks] (the caller's state threaded through),
    [current] when there is none. *)
Fixpoint last_parsed (parse : string -> E -> E * Parsed) (u : E)
         (chunks : list (string * bool)) (current : number) : number :=
  match chunks with
  | [] => current
  | chunk :: chunks' =>
      let '(u', pct) := parse (fst chunk) u in
      last_parsed parse u' chunks'
        match pct with
        | PNumber v => v
        | PNull | PUndefined => current
        end
  end.

(** [r'] is [r] up to the two variables a chunk may change, [completed] and
    the accumulated stderr text. *)
Definition run_steady (r r' : Run) : Prop :=
  run_label r' = run_label r /\ run_render r' = run_render r
  /\ run_mode r' = run_mode r /\ run_doneLabel r' = run_doneLabel r
  /\ run_tolerateFailure r' = run_tolerateFailure r
  /\ run_child r' = run_child r /\ run_promise r' = run_promise r.

(** What the handler of a chunk leaves alone: the terminal, the spinner, the
    timers, the clock, and every run up to [run_steady]; it creates no run. *)
Definition quiet (w w' : World) : Prop :=
  frameIdx w' = frameIdx w /\ output w' = output w /\ timers w' = timers w
  /\ next w' = next w /\ now w' = now w
  /\ (forall rid r, runs w !! rid = Some r ->
        exists r', runs w' !! rid = Some r' /\ run_steady r r')
  /\ (forall rid, runs w !! rid = None -> runs w' !! rid = None).

(** The caller's state once the close handler has evaluated
    [code === 0 || (tolerateFailure && tolerateFailure())]. *)
Definition user_at_exit (code : Z) (r : Run) (u : E) : E :=
  if (code =? 0)%Z then u
  else match run_tolerateFailure r with
       | Some tolerate => fst (tolerate u)
       | None => u
       end.

(** The exit code is zero, or a supplied [tolerateFailure], called on the
    caller's state [u], returns true. *)
Definition tolerated (code : Z) (r : Run) (u : E) : bool :=
  (code =? 0)%Z
  || match run_tolerateFailure r with
     | Some tolerate => snd (tolerate u)
     | None => false
     end.

(** The callbacks the close handler invokes to reach its verdict. *)
Definition exit_calls (code : Z) (r : Run) : list Call :=
  if (code =? 0)%Z then []
  else match run_tolerateFailure r with
       | Some _ => [CallTolerateFailure]
       | None => []
       end.

(** [doneLabel] resolved: the string itself, or what the function returns
    when it is called after the verdict; nothing when it is absent. *)
Definition done_label (code : Z) (r : Run) (u : E) : option string :=
  match run_doneLabel r with
  | Some (DoneFunction f) => Some (snd (f (user_at_exit code r u)))
  | Some (DoneString s) => Some s
  | None => None
  end.

(** The timers left once the close handler has cleared [pctInterval] (in
    estimated mode) and stopped the render timer. *)
Definition timers_at_exit (r : Run) (w : World) : gmap nat Timer :=
  delete (h_timer (run_render r))
    match run_mode r with
    | Estimated pctInterval => delete pctInterval (timers w)
    | Tracked _ _ _ => timers w
    end.

(** The first [k] frames of a snap from [currentPct]: frame [f] paints
    [snap_ratio currentPct f]. *)
Definition snap_frames (label : string) (currentPct : number) (k : nat)
  : list (string * number) :=
  map (fun f => (label, snap_ratio currentPct f)) (seq 1 k).

(** What the failure branch of the close handler prints: the failure line,
    then the trimmed stderr text in red when it is not empty. *)
Definition failure_report (r : Run) : list Output :=
  StdoutWrite (fail_text (run_label r))
  :: if string_truthy (trim (run_stderr r))
     then [ConsoleError (red chalk (LF +:+ trim (run_stderr r) +:+ LF) +:+ LF)]
     else [].

(** The state of a snap after [f] of its frames, relative to the world [w0]
    in which the interval [id] was created. *)
Definition snapping (id : nat) (delay : Z) (label : string) (c : number)
           (final : option string) (waiter : option nat)
           (f : nat) (w0 w : World) : Prop :=
  timers w = <[id := {| timer_callback := SnapTick label c final f waiter;
                        timer_delay := delay |}]> (timers w0)
  /\ frameIdx w = (frameIdx w0 + f)%nat
  /\ output w = output w0 ++ paint_lines (frameIdx w0) (snap_frames label c f)
  /\ pcts w = pcts w0 /\ runs w = runs w0 /\ next w = next w0
  /\ user w = user w0 /\ trace w = trace w0 /\ now w = now w0.

(** [w'] differs from [w] at most in the caller's state and in the record
    of callback invocations. *)
Definition callbacks_only (w w' : World) : Prop :=
  frameIdx w' = frameIdx w /\ now w' = now w /\ output w' = output w
  /\ pcts w' = pcts w /\ timers w' = timers w /\ runs w' = runs w
  /\ next w' = next w.

(** The call of [doneLabel], when it is a function. *)
Definition done_calls (r : Run) : list Call :=
  match run_doneLabel r with
  | Some (DoneFunction _) => [CallDoneLabel]
  | _ => []
  end.

(** The timer [id] was created earlier and is no longer active. *)
Definition cancelled (id : nat) (w : World) : Prop :=
  (id < next w)%nat /\ timers w !! id = None.

(** Ids are handed out in increasing order: no timer carries an id that has
    not been allocated yet, and the render timer of every run was allocated
    before [next]. *)
Definition well_formed (w : World) : Prop :=
  (forall id, (next w <= id)%nat -> timers w !! id = None)
  /\ (forall rid r, runs w !! rid = Some r -> (h_timer (run_render r) < next w)%nat).

End Engine.


Arguments World : clear implicits.
Arguments Run : clear implicits.
Arguments Event : clear implicits.

(** ** The easing curve of [runEstimated], over the real numbers

    [Math.exp] approximates the real exponential; what the sampler of
    [runEstimated] computes is read here over [R]. *)

Module Easing.

Definition adjustedMs (estimatedMs estimateBuffer : R) : R :=
  (estimatedMs * (1 + estimateBuffer))%R.

(** The value [pctInterval] hands to [render.setPct] when [elapsed]
    milliseconds have passed. *)
Definition ratio (estimatedMs estimateBuffer elapsed : R) : R :=
  (0.9 * (1 - exp (-2.5 * (elapsed / adjustedMs estimatedMs estimateBuffer))))%R.


End Easing.

(** ** Concrete instances, used to run the model *)

(** A rational stand-in for [Math.exp]: the Taylor polynomial of degree 8. *)
Definition exp_poly (x : Q) : Q :=
  fold_right (fun k acc => 1 + x * acc / inject_Z (Z.of_nat k))%Q 1%Q (seq 1 8).

(** A caller whose state is one flag, raised by the observer when a chunk
    mentions [exists]; the failure of the command is tolerated when the flag
    is up. *)
Definition world0 : World bool := createProgress 0 false.

Definition demo_parse (text : string) (u : bool) : bool * Parsed :=
  (u, if String.eqb text "50%" then PNumber (Num (1 # 2)) else PNull).

Definition demo_observe (text : string) (u : bool) : @BarProg bool :=
  if String.eqb text "step" then Increment (Return u)
  else Return (u || String_includes "exists" text).

Definition demo_tolerate (u : bool) : bool * bool := (u, u).

Definition demo_tracked : TrackedOptions :=
  {| t_label := "Build"; t_command := "make"; t_cwd := None;
     t_total := Some (Number.of_Z 10);
     t_onOutput := Some demo_observe;
     t_parseProgress := Some demo_parse;
     t_doneLabel := Some (DoneString "Built");
     t_tolerateFailure := Some demo_tolerate |}.


Definition demo_exec (events : list (Event bool)) : World bool :=
  exec chalk_plain default_options exp_poly events world0.

(** The engine right after [runTracked(demo_tracked)]: the handle has cell 0
    and timer 1, the run has id 2. *)
Definition demo_world : World bool := demo_exec [DoRunTracked demo_tracked].

Definition demo_handle : Handle := {| h_pct := 0; h_timer := 1 |}.

Definition demo_run : Run bool :=
  {| run_label := "Build"; run_render := demo_handle;
     run_mode := Tracked (Some (Number.of_Z 10)) (Some demo_observe) (Some demo_parse);
     run_completed := 0; run_stderr := EmptyString;
     run_doneLabel := Some (DoneString "Built");
     run_tolerateFailure := Some demo_tolerate;
     run_child := true; run_promise := Pending |}.

(** The child writes only white space on stderr and exits with code 1. *)
Definition blank_stderr_world : World bool :=
  demo_exec [DoRunTracked demo_tracked; ChildStderr 2 (" " +:+ LF); ChildClose 2 1].


(** Two runs one after the other on the same engine. *)
Definition two_runs_world : World bool :=
  demo_exec (DoRunTracked demo_tracked :: Fire 1 :: ChildClose 2 0
             :: repeat (Fire 3) 8 ++ [DoRunTracked demo_tracked]).

(** The texts the four static final states write for a label, with plain
    styling and the default options. *)
Definition final_state_texts (label : string) : list string :=
  [succeed_text chalk_plain default_options label;
   fail_text chalk_plain default_options label;
   info_text chalk_plain default_options label;
   warn_text chalk_plain default_options label].

(** The text sends no carriage return and no erase-line sequence. *)
Definition leaves_line_alone (text : string) : Prop :=
  String_includes CR text = false /\ String_includes ERASE_LINE text = false.

(** A time-estimated run, expected to take 26 seconds. *)
Definition demo_estimated : @EstimatedOptions bool :=
  {| e_label := "Install"; e_command := "npm install";
     e_estimatedMs := Number.of_Z 26000; e_cwd := None;
     e_doneLabel := None; e_tolerateFailure := None |}.

(** The same run with an estimate of zero. *)
Definition demo_zero_estimate : @EstimatedOptions bool :=
  {| e_label := "Install"; e_command := "npm install";
     e_estimatedMs := Number.of_Z 0; e_cwd := None;
     e_doneLabel := None; e_tolerateFailure := None |}.

(** A tracked run whose [total] is 0, driven by the observer alone. *)
Definition demo_zero_total : TrackedOptions :=
  {| t_label := "Build"; t_command := "make"; t_cwd := None;
     t_total := Some (Number.of_Z 0);
     t_onOutput := Some demo_observe;
     t_parseProgress := None;
     t_doneLabel := None;
     t_tolerateFailure := None |}.

(** A tracked run driven by the parser alone. *)
Definition demo_parsed : TrackedOptions :=
  {| t_label := "Build"; t_command := "make"; t_cwd := None;
     t_total := None;
     t_onOutput := None;
     t_parseProgress := Some demo_parse;
     t_doneLabel := Some (DoneString "Built");
     t_tolerateFailure := None |}.

(** The engine right after [runEstimated(demo_estimated)]: the handle has
    cell 0 and timer 1, the sampler is timer 2 and the run has id 3. *)
Definition estimated_world : World bool := demo_exec [DoRunEstimated demo_estimated].

Definition demo_estimated_run : Run bool :=
  {| run_label := "Install"; run_render := demo_handle;
     run_mode := Estimated 2;
     run_completed := 0; run_stderr := EmptyString;
     run_doneLabel := None; run_tolerateFailure := None;
     run_child := true; run_promise := Pending |}.

(** The engine right after [runTracked(demo_zero_total)]. *)
Definition zero_total_world : World bool := demo_exec [DoRunTracked demo_zero_total].

Definition demo_zero_total_run : Run bool :=
  {| run_label := "Build"; run_render := demo_handle;
     run_mode := Tracked (Some (Number.of_Z 0)) (Some demo_observe) None;
     run_completed := 0; run_stderr := EmptyString;
     run_doneLabel := None; run_tolerateFailure := None;
     run_child := true; run_promise := Pending |}.

(** Three chunks of a child: a warning on stderr, a line on stdout, and the
    rest of the warning on stderr. *)
Definition demo_chunks : list (string * bool) :=
  [("warn: a", true); ("50%", false); ("b", true)].

(** Promises and children keep in step: a run whose child has not closed is
    pending, a snap that a run awaits belongs to a run whose child has
    closed, and every run was created before [next]. *)
Definition orderly {E : Type} (w : World E) : Prop :=
  (forall rid r, runs w !! rid = Some r -> run_child r = true -> run_promise r = Pending)
  /\ (forall id t label c final f rid,
        timers w !! id = Some t ->
        timer_callback t = SnapTick label c final f (Some rid) ->
        exists r, runs w !! rid = Some r /\ run_child r = false)
  /\ (forall rid r, runs w !! rid = Some r -> (rid < next w)%nat).

(** What the stderr handler of a run adds to its accumulated text over a
    sequence of chunks: the texts of those that came on stderr, in the order
    of arrival. *)
Fixpoint stderr_text (chunks : list (string * bool)) : string :=
  match chunks with
  | [] => EmptyString
  | chunk :: chunks' =>
      (if snd chunk then fst chunk else EmptyString) +:+ stderr_text chunks'
  end.

(** * Properties *)

(** ** Arithmetic helpers *)

Lemma Qfloor_half_range (x : Q) (n : Z) :
  (0 <= x)%Q -> (x <= inject_Z n)%Q -> (0 <= Qfloor (x + (1 # 2)) <= n)%Z.
Proof.
  intros H0 Hn. split.
  - transitivity (Qfloor (inject_Z 0)); [rewrite Qfloor_Z; lia |].
    apply Qfloor_resp_le. change (inject_Z 0) with 0%Q. lra.
  - assert (Hlt : (inject_Z (Qfloor (x + (1 # 2))) < inject_Z (n + 1))%Q).
    { eapply Qle_lt_trans; [apply Qfloor_le |].
      rewrite inject_Z_plus. change (inject_Z 1) with 1%Q. lra. }
    rewrite <- Zlt_Qlt in Hlt. lia.
Qed.

Lemma Qclamp_range (q : Q) : (0 <= Qmax 0 (Qmin 1 q) <= 1)%Q.
Proof.
  split; [apply Q.le_max_l |].
  apply Q.max_lub; [lra | apply Q.le_min_l].
Qed.

Lemma String_repeat_integer (s : string) (z : Z) (q : Q) :
  (q == inject_Z z)%Q -> (0 <= z)%Z ->
  String_repeat s (Num q) = repeat_string s (Z.to_nat z)
  /\ repeat_range_error (Num q) = false.
Proof.
  intros Hq Hz.
  assert (Hle : Qle_bool 0 q = true).
  { apply Qle_bool_iff. rewrite Hq. change 0%Q with (inject_Z 0).
    rewrite <- Zle_Qle. exact Hz. }
  unfold String_repeat, repeat_range_error, Number.to_integer, Number.of_Z.
  rewrite Hle, Qfloor_Z, (Qfloor_comp _ _ Hq), Qfloor_Z. split; [reflexivity |].
  replace (Qle_bool 0 (inject_Z z)) with true; [reflexivity |].
  symmetry. apply Qle_bool_iff. change 0%Q with (inject_Z 0).
  rewrite <- Zle_Qle. exact Hz.
Qed.

(** ** Rendering *)

Section Rendering.

Variable chalk : Chalk.
Variable options : Options.

Let width : Z := Z.of_nat (barWidth options).

(** C3. For every ratio [r], inside [0,1] or not, [renderBar] fills
    [round(barWidth * clamp r)] segments, where [clamp] confines [r] to
    [0,1]; that count lies between 0 and [barWidth], the empty segments are
    the remaining [barWidth - filled], neither [repeat] raises a RangeError,
    and the two runs of glyphs add up to [barWidth]. *)
Theorem renderBar_counts (r : Q) :
  let clamped := Qmax 0 (Qmin 1 r) in
  let filled := Qfloor (inject_Z width * clamped + (1 # 2)) in
  clamp (Num r) = Num clamped
  /\ (0 <= clamped <= 1)%Q
  /\ filledCount options (Num r) = Number.of_Z filled
  /\ (0 <= filled <= width)%Z
  /\ Number.eqv (emptyCount options (Num r)) (Number.of_Z (width - filled))
  /\ Number.eqv (Number.add (filledCount options (Num r)) (emptyCount options (Num r)))
                (Number.of_nat (barWidth options))
  /\ repeat_range_error (filledCount options (Num r)) = false
  /\ repeat_range_error (emptyCount options (Num r)) = false
  /\ renderBar chalk options (Num r)
     = cyan chalk (repeat_string (filledChar options) (Z.to_nat filled))
       +:+ dim chalk (repeat_string (emptyChar options) (Z.to_nat (width - filled)))
  /\ (Z.to_nat filled + Z.to_nat (width - filled) = barWidth options)%nat.
Proof.
  intros clamped filled.
  pose proof (Qclamp_range r) as [Hc0 Hc1]. fold clamped in Hc0, Hc1.
  assert (Hw : (0 <= inject_Z width)%Q).
  { change 0%Q with (inject_Z 0). rewrite <- Zle_Qle. unfold width. lia. }
  assert (Hrange : (0 <= filled <= width)%Z).
  { apply Qfloor_half_range; [nra | nra]. }
  assert (Hempty : (inject_Z width + - inject_Z filled == inject_Z (width - filled))%Q).
  { unfold Z.sub. rewrite inject_Z_plus, inject_Z_opp. reflexivity. }
  destruct (String_repeat_integer (filledChar options) filled (inject_Z filled))
    as [Hf1 Hf2]; [reflexivity | lia |].
  destruct (String_repeat_integer (emptyChar options) (width - filled)
              (inject_Z width + - inject_Z filled)) as [He1 He2]; [exact Hempty | lia |].
  split; [reflexivity |].
  split; [split; assumption |].
  split; [reflexivity |].
  split; [exact Hrange |].
  split; [exact Hempty |].
  split; [cbn; fold width; lra |].
  split; [exact Hf2 |].
  split; [exact He2 |].
  split; [| unfold width in *; lia].
  unfold renderBar. f_equal; [f_equal; exact Hf1 | f_equal; exact He1].
Qed.

End Rendering.

(** Reduction of the projections of a world built by the setters. *)
Ltac world_simpl :=
  cbn [frameIdx now user output pcts timers runs next trace
       set_frameIdx set_now set_user set_output set_pcts set_timers set_runs
       set_next set_trace write console_error log paint setInterval clearInterval
       succeed fail info warn settle setPct_cell setPct stop fst snd].

(** ** Painting and the static final states *)

Section Painting.

Context {E : Type}.
Variable chalk : Chalk.
Variable options : Options.

Implicit Types (w : World E) (label : string) (pct : number).

Lemma paint_frameIdx label pct w :
  frameIdx (paint chalk options label pct w) = S (frameIdx w).
Proof. reflexivity. Qed.

Lemma paint_output label pct w :
  output (paint chalk options label pct w)
  = output w ++ [StdoutWrite (paint_text chalk options (frameIdx w) label pct)].
Proof. reflexivity. Qed.

Lemma paint_calls_frameIdx (calls : list (string * number)) w :
  frameIdx (paint_calls chalk options calls w) = (frameIdx w + length calls)%nat.
Proof.
  revert w. induction calls as [| [label pct] calls IH]; intros w; cbn [paint_calls length].
  - lia.
  - rewrite IH, paint_frameIdx. lia.
Qed.

Lemma paint_calls_output (calls : list (string * number)) w :
  output (paint_calls chalk options calls w)
  = output w ++ paint_lines chalk options (frameIdx w) calls.
Proof.
  revert w. induction calls as [| [label pct] calls IH]; intros w;
    cbn [paint_calls paint_lines].
  - by rewrite app_nil_r.
  - rewrite IH, paint_output, paint_frameIdx, <- app_assoc. reflexivity.
Qed.

Lemma paint_lines_lookup (idx : nat) (calls : list (string * number)) (i : nat) label pct :
  calls !! i = Some (label, pct) ->
  paint_lines chalk options idx calls !! i
  = Some (StdoutWrite (paint_text chalk options (idx + i) label pct)).
Proof.
  revert idx i. induction calls as [| [l p] calls IH]; intros idx i H; [done |].
  destruct i as [| i]; cbn in *.
  - inversion H; subst. by rewrite Nat.add_0_r.
  - rewrite (IH _ _ H). do 3 f_equal. lia.
Qed.

Lemma spinner_frame_lookup (i : nat) :
  spinnerFrames options <> [] ->
  spinnerFrames options !! (i mod length (spinnerFrames options))
  = Some (spinner_frame options i).
Proof.
  intros Hne. unfold spinner_frame.
  destruct (lookup_lt_is_Some_2 (spinnerFrames options)
              (i mod length (spinnerFrames options))) as [g Hg].
  - apply Nat.mod_upper_bound. destruct (spinnerFrames options); [done | cbn; lia].
  - by rewrite Hg.
Qed.

(** C7. Every call of [paint] advances the spinner index of the engine by
    exactly one and writes the frame [spinnerFrames[index mod frameCount]],
    [index] being the value before the call.  The index belongs to the
    engine, not to a bar: whatever labels and ratios a sequence of paints
    carries (whichever bars or runs they come from), the [i]-th of them uses
    the index [frameIdx + i], so the cycle continues across them.  The first
    frame of every [start] and every tick of a render timer are such paints:
    they take the index as the previous paint left it. *)
Theorem paint_advances_spinner label pct w :
  frameIdx (paint chalk options label pct w) = S (frameIdx w)
  /\ output (paint chalk options label pct w)
     = output w ++
       [StdoutWrite
          (CR_ERASE_LINE +:+ pad options
           +:+ cyan chalk (spinner_frame options (frameIdx w))
           +:+ " " +:+ label +:+ "  " +:+ renderBar chalk options pct +:+ "  "
           +:+ dim chalk
                 (Number.to_string (Number.round (Number.mul pct (Number.of_Z 100)))
                  +:+ "%"))]
  /\ (spinnerFrames options <> [] ->
      spinnerFrames options !! (frameIdx w mod length (spinnerFrames options))
      = Some (spinner_frame options (frameIdx w)))
  /\ (forall calls : list (string * number),
        frameIdx (paint_calls chalk options calls w) = (frameIdx w + length calls)%nat
        /\ forall i l p, calls !! i = Some (l, p) ->
             output (paint_calls chalk options calls w) !! (length (output w) + i)%nat
             = Some (StdoutWrite (paint_text chalk options (frameIdx w + i) l p)))
  /\ (forall l p,
        frameIdx (snd (start chalk options l p w)) = S (frameIdx w)
        /\ output (snd (start chalk options l p w))
           = output w ++ [StdoutWrite (paint_text chalk options (frameIdx w) l p)])
  /\ (forall (Math_exp_rational : Q -> Q) id l cell delay,
        timers w !! id = Some {| timer_callback := RenderTick l cell; timer_delay := delay |} ->
        frameIdx (fire chalk options Math_exp_rational id w) = S (frameIdx w)
        /\ output (fire chalk options Math_exp_rational id w)
           = output w
             ++ [StdoutWrite (paint_text chalk options (frameIdx w) l (getPct_cell cell w))]).
Proof.
  split; [reflexivity |]. split; [reflexivity |].
  split; [apply spinner_frame_lookup |].
  split.
  { intros calls. split; [apply paint_calls_frameIdx |].
    intros i l p H. rewrite paint_calls_output, lookup_app_r by lia.
    replace (length (output w) + i - length (output w))%nat with i by lia.
    by apply paint_lines_lookup. }
  split.
  { intros l p. split; [reflexivity |]. cbn. unfold getPct_cell. cbn.
    by rewrite lookup_insert_eq. }
  intros Math_exp_rational id l cell delay Hid. unfold fire. by rewrite Hid.
Qed.

(** C8 (as the code has it). Each of [succeed], [fail], [info] and [warn]
    writes once: its glyph, the label and a line feed.  [info] and [warn]
    write just that, after the indent; [succeed] and [fail] first send a
    carriage return and the erase-line sequence, so they replace the line the
    cursor is on (the last frame of a bar).  None of them touches the timers,
    the spinner index or a ratio. *)
Theorem final_states_print_once label w :
  output (succeed chalk options label w)
  = output w ++ [StdoutWrite (CR_ERASE_LINE +:+ pad options +:+ green chalk "✓"
                              +:+ " " +:+ label +:+ LF)]
  /\ output (fail chalk options label w)
     = output w ++ [StdoutWrite (CR_ERASE_LINE +:+ pad options +:+ red chalk "✖"
                                 +:+ " " +:+ label +:+ LF)]
  /\ output (info chalk options label w)
     = output w ++ [StdoutWrite (pad options +:+ dim chalk "○" +:+ " " +:+ label +:+ LF)]
  /\ output (warn chalk options label w)
     = output w ++ [StdoutWrite (pad options +:+ yellow chalk "⚠" +:+ " " +:+ label +:+ LF)]
  /\ (forall op, In op [succeed chalk options; fail chalk options;
                        info chalk options; warn chalk options] ->
        timers (op label w) = timers w
        /\ frameIdx (op label w) = frameIdx w
        /\ pcts (op label w) = pcts w
        /\ runs (op label w) = runs w
        /\ next (op label w) = next w).
Proof.
  repeat (split; [reflexivity |]).
  intros op [<- | [<- | [<- | [<- | []]]]]; repeat split.
Qed.

End Painting.

(** ** Tracked runs: chunks, the parser, the observer and the bar *)

Section Tracking.

Context {E : Type}.

Implicit Types (w : World E) (r : Run E) (rid : nat).

Lemma run_steady_refl r : run_steady r r.
Proof. by repeat split. Qed.

Lemma run_steady_trans r1 r2 r3 :
  run_steady r1 r2 -> run_steady r2 r3 -> run_steady r1 r3.
Proof. unfold run_steady. intros; destruct_and!. repeat split; congruence. Qed.

Lemma quiet_same_runs w w' :
  frameIdx w' = frameIdx w -> output w' = output w -> timers w' = timers w ->
  next w' = next w -> now w' = now w -> runs w' = runs w -> quiet w w'.
Proof.
  intros A1 A2 A3 A4 A5 Hr. repeat split; try done.
  - intros rid r H. exists r. rewrite Hr. split; [done | apply run_steady_refl].
  - intros rid H. by rewrite Hr.
Qed.

Lemma quiet_refl w : quiet w w.
Proof. by apply quiet_same_runs. Qed.

Lemma quiet_trans w1 w2 w3 : quiet w1 w2 -> quiet w2 w3 -> quiet w1 w3.
Proof.
  intros (A1&A2&A3&A4&A5&H12&N12) (B1&B2&B3&B4&B5&H23&N23).
  repeat split; try congruence.
  - intros rid r H. destruct (H12 _ _ H) as (r2 & H2 & S2).
    destruct (H23 _ _ H2) as (r3 & H3 & S3).
    exists r3. split; [done | by eapply run_steady_trans].
  - intros rid H. by apply N23, N12.
Qed.

Lemma quiet_setPct (h : Handle) v w : quiet w (setPct h v w).
Proof. by apply quiet_same_runs. Qed.

Lemma quiet_set_user u w : quiet w (set_user u w).
Proof. by apply quiet_same_runs. Qed.

Lemma quiet_log c w : quiet w (log c w).
Proof. by apply quiet_same_runs. Qed.

Lemma quiet_set_runs_alter (f : Run E -> Run E) rid w :
  (forall r, run_steady r (f r)) -> quiet w (set_runs (alter f rid (runs w)) w).
Proof.
  intros Hf. repeat split.
  - intros rid' r H. cbn.
    destruct (decide (rid = rid')) as [-> | Hne].
    + exists (f r). rewrite lookup_alter_eq, H. split; [done | apply Hf].
    + exists r. rewrite lookup_alter_ne by done. split; [done | apply run_steady_refl].
  - intros rid' H. cbn. destruct (decide (rid = rid')) as [-> | Hne].
    + by rewrite lookup_alter_eq, H.
    + by rewrite lookup_alter_ne.
Qed.

Lemma quiet_append_stderr rid text w : quiet w (append_stderr rid text w).
Proof. apply quiet_set_runs_alter. intros r. by repeat split. Qed.

Lemma quiet_increment rid w : quiet w (increment rid w).
Proof.
  unfold increment. destruct (runs w !! rid) as [r |] eqn:Hr; [| apply quiet_refl].
  assert (Hq : quiet w (set_runs (<[rid := set_run_completed (S (run_completed r)) r]> (runs w)) w)).
  { repeat split.
    - intros rid' r' H. cbn.
      destruct (decide (rid = rid')) as [-> | Hne].
      + rewrite lookup_insert_eq. eexists. split; [done |].
        rewrite Hr in H. inversion H; subst. by repeat split.
      + rewrite lookup_insert_ne by done. exists r'. split; [done | apply run_steady_refl].
    - intros rid' H. cbn. rewrite lookup_insert_ne; [done | congruence]. }
  destruct (run_mode r) as [| [total |] ? ?]; try exact Hq.
  destruct (Number.truthy total); [| exact Hq].
  eapply quiet_trans; [exact Hq | apply quiet_setPct].
Qed.

Lemma quiet_run_bar rid (render : Handle) (p : BarProg) w :
  quiet w (run_bar rid render p w).
Proof.
  revert w. induction p as [u | k IH | v k IH | k IH]; intros w; cbn [run_bar].
  - apply quiet_set_user.
  - eapply quiet_trans; [apply quiet_increment | apply IH].
  - eapply quiet_trans; [apply quiet_setPct | apply IH].
  - apply IH.
Qed.

Lemma trace_increment rid w : trace (increment rid w) = trace w.
Proof.
  unfold increment. destruct (runs w !! rid) as [r |]; [| done].
  destruct (run_mode r) as [| [total |] ? ?]; try done.
  by destruct (Number.truthy total).
Qed.

Lemma trace_run_bar rid (render : Handle) (p : BarProg) w :
  trace (run_bar rid render p w) = trace w.
Proof.
  revert w. induction p as [u | k IH | v k IH | k IH]; intros w; cbn [run_bar].
  - done.
  - by rewrite IH, trace_increment.
  - by rewrite IH.
  - apply IH.
Qed.

Lemma quiet_collect_stderr rid text isStderr w :
  quiet w (collect_stderr rid text isStderr w).
Proof. destruct isStderr; [apply quiet_append_stderr | apply quiet_refl]. Qed.

Lemma quiet_apply_parseProgress (render : Handle) parseProgress text w :
  quiet w (apply_parseProgress render parseProgress text w).
Proof.
  unfold apply_parseProgress. destruct parseProgress as [parse |]; [| apply quiet_refl].
  destruct (parse text (user (log (CallParseProgress text) w))) as [u pct].
  eapply quiet_trans; [apply (quiet_log (CallParseProgress text)) |].
  eapply quiet_trans; [apply (quiet_set_user u) |].
  destruct pct; [apply quiet_refl | apply quiet_refl | apply quiet_setPct].
Qed.

Lemma quiet_apply_onOutput rid (render : Handle) onOutput text w :
  quiet w (apply_onOutput rid render onOutput text w).
Proof.
  unfold apply_onOutput. destruct onOutput as [observe |]; [| apply quiet_refl].
  eapply quiet_trans; [apply (quiet_log (CallOnOutput text)) | apply quiet_run_bar].
Qed.

Lemma quiet_on_data rid text isStderr w : quiet w (on_data rid text isStderr w).
Proof.
  unfold on_data. destruct (runs w !! rid) as [r |]; [| apply quiet_refl].
  destruct (run_child r); [| apply quiet_refl].
  destruct (run_mode r) as [pctInterval | total onOutput parseProgress].
  - destruct isStderr; [apply quiet_append_stderr | apply quiet_refl].
  - unfold processData.
    eapply quiet_trans; [apply quiet_collect_stderr |].
    eapply quiet_trans; [apply quiet_apply_parseProgress | apply quiet_apply_onOutput].
Qed.

Variable chalk : Chalk.
Variable options : Options.
Variable Math_exp_rational : Q -> Q.

Lemma Qeq_bool_inject_Z_pos (n : Z) : (0 < n)%Z -> Qeq_bool (inject_Z n) 0 = false.
Proof.
  intros Hn. destruct (Qeq_bool (inject_Z n) 0) eqn:Heq; [| done].
  apply Qeq_bool_iff in Heq. unfold Qeq in Heq. cbn in Heq. lia.
Qed.

Lemma getPct_setPct (h : Handle) v w : getPct h (setPct h v w) = v.
Proof. unfold getPct, setPct, getPct_cell, setPct_cell. cbn. by rewrite lookup_insert_eq. Qed.

Lemma increment_run rid r w :
  runs w !! rid = Some r ->
  runs (increment rid w) !! rid = Some (set_run_completed (S (run_completed r)) r).
Proof.
  intros Hr. unfold increment. rewrite Hr.
  destruct (run_mode r) as [| [total |] ? ?]; cbn; try by rewrite lookup_insert_eq.
  destruct (Number.truthy total); cbn; by rewrite lookup_insert_eq.
Qed.

Lemma increment_iter rid r w (k : nat) :
  runs w !! rid = Some r ->
  runs (Nat.iter k (increment rid) w) !! rid
  = Some (set_run_completed (k + run_completed r) r).
Proof.
  intros Hr. induction k as [| k IH]; simpl Nat.iter.
  - rewrite Hr. by destruct r.
  - by rewrite (increment_run _ _ _ IH).
Qed.

(** C5. Each call of [bar.increment()] adds exactly one to [completed] (so
    [k] calls add [k]); with [total] set to an integer above zero it then
    stores [completed / total], the new count over the total, as the ratio of
    the handle; with no [total] the ratios are left as they were.  This is
    what runs when the observer calls [bar.increment()]. *)
Theorem increment_counts_one rid r total onOutput parseProgress w :
  runs w !! rid = Some r ->
  run_mode r = Tracked total onOutput parseProgress ->
  run_completed <$> runs (increment rid w) !! rid = Some (S (run_completed r))
  /\ (forall k : nat,
        run_completed <$> runs (Nat.iter k (increment rid) w) !! rid
        = Some (k + run_completed r)%nat)
  /\ (forall n : Z, (0 < n)%Z -> total = Some (Number.of_Z n) ->
        getPct (run_render r) (increment rid w)
        = Num (inject_Z (Z.of_nat (S (run_completed r))) / inject_Z n))
  /\ (total = None -> pcts (increment rid w) = pcts w)
  /\ (forall (render : Handle) (k : BarProg),
        run_bar rid render (Increment k) w = run_bar rid render k (increment rid w)).
Proof.
  intros Hr Hmode. split; [by rewrite (increment_run _ _ _ Hr) |].
  split; [intros k; by rewrite (increment_iter _ _ _ k Hr) |].
  split.
  - intros n Hn ->. unfold increment. rewrite Hr, Hmode.
    unfold Number.truthy, Number.of_Z. rewrite (Qeq_bool_inject_Z_pos n Hn). cbn [negb].
    rewrite getPct_setPct. unfold Number.div, Number.of_nat, Number.of_Z.
    by rewrite (Qeq_bool_inject_Z_pos n Hn).
  - split; [| reflexivity]. intros ->. unfold increment. by rewrite Hr, Hmode.
Qed.

Lemma step_chunk_event rid chunk w :
  step chalk options Math_exp_rational (chunk_event rid chunk) w
  = on_data rid (fst chunk) (snd chunk) w.
Proof. destruct chunk as [text []]; reflexivity. Qed.

Lemma user_collect_stderr rid text isStderr w :
  user (collect_stderr rid text isStderr w) = user w
  /\ pcts (collect_stderr rid text isStderr w) = pcts w
  /\ trace (collect_stderr rid text isStderr w) = trace w.
Proof. by destruct isStderr. Qed.

(** The parser's statement of [processData], case by case. *)
Lemma apply_parseProgress_spec (render : Handle) parse text w :
  let w1 := apply_parseProgress render (Some parse) text w in
  user w1 = fst (parse text (user w))
  /\ trace w1 = trace w ++ [CallParseProgress text]
  /\ match snd (parse text (user w)) with
     | PNumber v =>
         getPct render w1 = v
         /\ forall cell, cell <> h_pct render -> pcts w1 !! cell = pcts w !! cell
     | PNull | PUndefined => pcts w1 = pcts w
     end.
Proof.
  cbn. change (user (log (CallParseProgress text) w)) with (user w).
  destruct (parse text (user w)) as [u [| | v]]; cbn; repeat split.
  - unfold getPct, getPct_cell. cbn. by rewrite lookup_insert_eq.
  - intros cell Hne. by rewrite lookup_insert_ne.
Qed.

Lemma on_data_tracked rid r total onOutput parseProgress text isStderr w :
  runs w !! rid = Some r -> run_child r = true ->
  run_mode r = Tracked total onOutput parseProgress ->
  on_data rid text isStderr w
  = apply_onOutput rid (run_render r) onOutput text
      (apply_parseProgress (run_render r) parseProgress text
         (collect_stderr rid text isStderr w)).
Proof. intros Hr Hc Hm. unfold on_data. by rewrite Hr, Hc, Hm. Qed.

Lemma parser_only_chunks rid parse (chunks : list (string * bool)) :
  forall r total w,
    runs w !! rid = Some r -> run_child r = true ->
    run_mode r = Tracked total None (Some parse) ->
    getPct (run_render r)
      (exec chalk options Math_exp_rational (map (chunk_event rid) chunks) w)
    = last_parsed parse (user w) chunks (getPct (run_render r) w).
Proof.
  induction chunks as [| [text isStderr] chunks IH]; intros r total w Hr Hc Hm; [done |].
  cbn [map exec fold_left last_parsed fst]. rewrite step_chunk_event. cbn [fst snd].
  fold (exec chalk options Math_exp_rational (map (chunk_event rid) chunks)
          (on_data rid text isStderr w)).
  destruct (quiet_on_data rid text isStderr w) as (_&_&_&_&_&Hruns&_).
  destruct (Hruns _ _ Hr) as (r' & Hr' & _ & Hrender & Hmode & _ & _ & Hchild & _).
  rewrite <- Hrender.
  rewrite (IH r' total _ Hr'); [| congruence | congruence].
  rewrite Hrender.
  rewrite (on_data_tracked _ _ _ _ _ _ _ _ Hr Hc Hm). cbn [apply_onOutput].
  destruct (user_collect_stderr rid text isStderr w) as (Hu & Hp & _).
  destruct (apply_parseProgress_spec (run_render r) parse text
              (collect_stderr rid text isStderr w)) as (Hu1 & _ & Hpct).
  cbn zeta in Hu1, Hpct. rewrite Hu in Hu1, Hpct. rewrite Hu1.
  destruct (parse text (user w)) as [u pct]. cbn [fst snd] in *.
  destruct pct as [| | v].
  - unfold getPct, getPct_cell. by rewrite Hpct, Hp.
  - unfold getPct, getPct_cell. by rewrite Hpct, Hp.
  - destruct Hpct as [-> _]. done.
Qed.

(** C4. In a tracked run with [parseProgress] configured, every chunk goes
    through the parser before the observer; when the parser returns a number
    [v], the ratio of the handle becomes [v] (no other handle changes); when
    it returns [null] or [undefined], no ratio changes.  With the parser as
    the only callback, the ratio after any sequence of chunks is therefore the
    most recent number the parser returned: after [0.5] and then [null] it is
    still [0.5]. *)
Theorem parseProgress_sets_ratio rid r total onOutput parse text isStderr w :
  runs w !! rid = Some r -> run_child r = true ->
  run_mode r = Tracked total onOutput (Some parse) ->
  let render := run_render r in
  let w1 := apply_parseProgress render (Some parse) text
              (collect_stderr rid text isStderr w) in
  on_data rid text isStderr w = apply_onOutput rid render onOutput text w1
  /\ match snd (parse text (user w)) with
     | PNumber v =>
         getPct render w1 = v
         /\ forall cell, cell <> h_pct render -> pcts w1 !! cell = pcts w !! cell
     | PNull | PUndefined => pcts w1 = pcts w
     end
  /\ (onOutput = None ->
      on_data rid text isStderr w = w1
      /\ forall chunks : list (string * bool),
           getPct render
             (exec chalk options Math_exp_rational (map (chunk_event rid) chunks) w)
           = last_parsed parse (user w) chunks (getPct render w)).
Proof.
  intros Hr Hc Hm render w1.
  split; [by apply on_data_tracked with (total := total) |].
  destruct (user_collect_stderr rid text isStderr w) as (Hu & Hp & _).
  destruct (apply_parseProgress_spec render parse text
              (collect_stderr rid text isStderr w)) as (_ & _ & Hpct).
  cbn zeta in Hpct. fold w1 in Hpct. rewrite Hu in Hpct.
  split.
  - destruct (snd (parse text (user w))); [congruence | congruence |].
    destruct Hpct as [Hv Hother]. split; [exact Hv |].
    intros cell Hne. rewrite (Hother cell Hne). by rewrite Hp.
  - intros ->. split.
    + by rewrite (on_data_tracked _ _ _ _ _ _ _ _ Hr Hc Hm).
    + intros chunks. by apply parser_only_chunks with (total := total).
Qed.

Lemma both_callbacks_chunks rid observe parse (chunks : list (string * bool)) :
  forall r total w,
    runs w !! rid = Some r -> run_child r = true ->
    run_mode r = Tracked total (Some observe) (Some parse) ->
    trace (exec chalk options Math_exp_rational (map (chunk_event rid) chunks) w)
    = trace w ++ flat_map (fun chunk => [CallParseProgress (fst chunk);
                                         CallOnOutput (fst chunk)]) chunks.
Proof.
  induction chunks as [| [text isStderr] chunks IH]; intros r total w Hr Hc Hm.
  - cbn. by rewrite app_nil_r.
  - cbn [map exec fold_left flat_map fst]. rewrite step_chunk_event. cbn [fst snd].
    fold (exec chalk options Math_exp_rational (map (chunk_event rid) chunks)
            (on_data rid text isStderr w)).
    destruct (quiet_on_data rid text isStderr w) as (_&_&_&_&_&Hruns&_).
    destruct (Hruns _ _ Hr) as (r' & Hr' & _ & Hrender & Hmode & _ & _ & Hchild & _).
    rewrite (IH r' total _ Hr'); [| congruence | congruence].
    rewrite (on_data_tracked _ _ _ _ _ _ _ _ Hr Hc Hm). cbn [apply_onOutput].
    rewrite trace_run_bar. cbn [log trace set_trace].
    destruct (apply_parseProgress_spec (run_render r) parse text
                (collect_stderr rid text isStderr w)) as (_ & -> & _).
    destruct (user_collect_stderr rid text isStderr w) as (_ & _ & ->).
    rewrite <- !app_assoc. reflexivity.
Qed.

(** C9. In a tracked run with both callbacks configured, every chunk, from
    stdout or stderr, invokes [parseProgress] on the chunk and then
    [onOutput] on the same chunk, whatever the parser returned: the observer
    runs on the state the parser left (ratio updated or not), and the parser
    runs on every later chunk whatever the observer did.  Chunks are handled
    in the order they arrive. *)
Theorem chunk_callbacks_in_order rid r total observe parse text isStderr w :
  runs w !! rid = Some r -> run_child r = true ->
  run_mode r = Tracked total (Some observe) (Some parse) ->
  let render := run_render r in
  let w1 := apply_parseProgress render (Some parse) text
              (collect_stderr rid text isStderr w) in
  trace (on_data rid text isStderr w)
  = trace w ++ [CallParseProgress text; CallOnOutput text]
  /\ on_data rid text isStderr w
     = run_bar rid render (observe text (fst (parse text (user w))))
         (log (CallOnOutput text) w1)
  /\ (forall chunks : list (string * bool),
        trace (exec chalk options Math_exp_rational (map (chunk_event rid) chunks) w)
        = trace w ++ flat_map (fun chunk => [CallParseProgress (fst chunk);
                                             CallOnOutput (fst chunk)]) chunks).
Proof.
  intros Hr Hc Hm render w1.
  destruct (user_collect_stderr rid text isStderr w) as (Hu & _ & Ht).
  destruct (apply_parseProgress_spec render parse text
              (collect_stderr rid text isStderr w)) as (Hu1 & Ht1 & _).
  cbn zeta in Hu1, Ht1. fold w1 in Hu1, Ht1. rewrite Hu in Hu1. rewrite Ht in Ht1.
  assert (Heq : on_data rid text isStderr w
                = run_bar rid render (observe text (fst (parse text (user w))))
                    (log (CallOnOutput text) w1)).
  { rewrite (on_data_tracked _ _ _ _ _ _ _ _ Hr Hc Hm). cbn [apply_onOutput].
    fold render. fold w1. change (user (log (CallOnOutput text) w1)) with (user w1).
    by rewrite Hu1. }
  split; [| split; [exact Heq |]].
  - rewrite Heq, trace_run_bar. cbn [log trace set_trace]. rewrite Ht1.
    by rewrite <- app_assoc.
  - intros chunks. exact (both_callbacks_chunks rid observe parse chunks r total w Hr Hc Hm).
Qed.

End Tracking.

(** ** Completion: the close handler and the snap to 100% *)

Section Completion.

Context {E : Type}.
Variable chalk : Chalk.
Variable options : Options.

Implicit Types (w : World E) (r : Run E) (rid id : nat).

Lemma paint_lines_app (idx : nat) (a b : list (string * number)) :
  paint_lines chalk options idx (a ++ b)
  = paint_lines chalk options idx a ++ paint_lines chalk options (idx + length a) b.
Proof.
  revert idx. induction a as [| [l p] a IH]; intros idx; cbn [paint_lines app length].
  - by rewrite Nat.add_0_r.
  - rewrite IH. do 3 f_equal. lia.
Qed.


Lemma snap_frames_succ label c (k : nat) :
  snap_frames label c (S k) = snap_frames label c k ++ [(label, snap_ratio c (S k))].
Proof. unfold snap_frames. by rewrite seq_S, map_app. Qed.

Lemma snap_frames_length label c (k : nat) : length (snap_frames label c k) = k.
Proof. unfold snap_frames. by rewrite length_map, length_seq. Qed.

Lemma snapping_tick (Math_exp_rational : Q -> Q) id delay label c final waiter f w0 w :
  snapping chalk options id delay label c final waiter f w0 w -> (S f < totalFrames)%nat ->
  snapping chalk options id delay label c final waiter (S f) w0
    (fire chalk options Math_exp_rational id w).
Proof.
  intros (Ht & Hf & Ho & Hp & Hr & Hn & Hu & Htr & Hnow) Hlt.
  unfold fire. rewrite Ht, lookup_insert_eq.
  cbn [timer_callback timer_delay]. unfold snap_tick.
  destruct (totalFrames <=? S f)%nat eqn:Hle; [apply Nat.leb_le in Hle; lia |].
  unfold snapping. world_simpl.
  rewrite Ht, insert_insert_eq, Hf, Ho, snap_frames_succ.
  rewrite paint_lines_app, snap_frames_length, <- app_assoc.
  repeat split; try done; lia.
Qed.

Lemma snapping_iter (Math_exp_rational : Q -> Q) id delay label c final waiter w0 w (k : nat) :
  snapping chalk options id delay label c final waiter 0 w0 w -> (k < totalFrames)%nat ->
  snapping chalk options id delay label c final waiter k w0
    (Nat.iter k (fire chalk options Math_exp_rational id) w).
Proof.
  intros H0. induction k as [| k IH]; intros Hk; [exact H0 |].
  simpl Nat.iter. apply snapping_tick; [apply IH; lia | lia].
Qed.

(** The last frame: the interval is cleared, the success line printed and
    the waiting run resolved. *)
Lemma snapping_last (Math_exp_rational : Q -> Q) id delay label c final waiter w0 w :
  snapping chalk options id delay label c final waiter (totalFrames - 1) w0 w ->
  let w' := fire chalk options Math_exp_rational id w in
  timers w' = delete id (timers w0)
  /\ frameIdx w' = (frameIdx w0 + totalFrames)%nat
  /\ output w'
     = output w0
       ++ paint_lines chalk options (frameIdx w0) (snap_frames label c totalFrames)
       ++ [StdoutWrite (succeed_text chalk options (or_label final label))]
  /\ pcts w' = pcts w0
  /\ runs w' = match waiter with
               | Some rid => alter (set_run_promise Fulfilled) rid (runs w0)
               | None => runs w0
               end
  /\ next w' = next w0 /\ user w' = user w0 /\ trace w' = trace w0.
Proof.
  intros (Ht & Hf & Ho & Hp & Hr & Hn & Hu & Htr & Hnow) w'.
  unfold w', fire. rewrite Ht, lookup_insert_eq.
  cbn [timer_callback timer_delay]. unfold snap_tick.
  change (totalFrames <=? S (totalFrames - 1))%nat with true. cbn iota.
  assert (Hlines : paint_lines chalk options (frameIdx w0) (snap_frames label c totalFrames)
                   = paint_lines chalk options (frameIdx w0)
                       (snap_frames label c (totalFrames - 1))
                     ++ [StdoutWrite (paint_text chalk options (frameIdx w) label
                                        (snap_ratio c totalFrames))]).
  { change totalFrames with (S (totalFrames - 1)) at 1.
    rewrite snap_frames_succ, paint_lines_app, snap_frames_length, Hf. reflexivity. }
  destruct waiter as [rid |]; world_simpl;
    rewrite ?Ht, ?Ho, ?Hlines, insert_insert_eq, delete_insert_eq, <- ?app_assoc;
    repeat split; try done; rewrite ?Hf; try (cbn; lia); by rewrite ?Hr.
Qed.

Lemma exit_ok_spec code r w :
  let res := exit_ok code (run_tolerateFailure r) w in
  fst res = tolerated code r (user w)
  /\ user (snd res) = user_at_exit code r (user w)
  /\ trace (snd res) = trace w ++ exit_calls code r
  /\ callbacks_only w (snd res).
Proof.
  unfold exit_ok, tolerated, user_at_exit, exit_calls, callbacks_only.
  destruct (code =? 0)%Z; cbn; [by rewrite app_nil_r |].
  destruct (run_tolerateFailure r) as [tolerate |]; cbn; [| by rewrite app_nil_r].
  by destruct (tolerate (user w)).
Qed.

Lemma resolve_doneLabel_spec r w :
  let res := resolve_doneLabel (run_doneLabel r) w in
  fst res = match run_doneLabel r with
            | Some (DoneFunction f) => Some (snd (f (user w)))
            | Some (DoneString s) => Some s
            | None => None
            end
  /\ trace (snd res) = trace w ++ done_calls r
  /\ callbacks_only w (snd res).
Proof.
  unfold resolve_doneLabel, done_calls, callbacks_only.
  destruct (run_doneLabel r) as [[s | f] |]; cbn; try by rewrite app_nil_r.
  by destruct (f (user w)).
Qed.

(** The world in which the close handler reaches its verdict: the child is
    marked closed, [pctInterval] cleared and the render timer stopped. *)
Lemma on_close_unfold rid r code w :
  runs w !! rid = Some r -> run_child r = true ->
  let w3 := set_timers (timers_at_exit r w)
              (set_runs (<[rid := set_run_child false r]> (runs w)) w) in
  on_close chalk options rid code w
  = let '(ok, w4) := exit_ok code (run_tolerateFailure r) w3 in
    if ok then
      let '(final, w5) := resolve_doneLabel (run_doneLabel r) w4 in
      snd (snapTo100 (run_label r) (getPct (run_render r) w5) final (Some rid) w5)
    else
      let w5 := fail chalk options (run_label r) w4 in
      let w6 := if string_truthy (trim (run_stderr r))
                then console_error (red chalk (LF +:+ trim (run_stderr r) +:+ LF)) w5
                else w5 in
      settle rid (Rejected (CommandFailed code)) w6.
Proof.
  intros Hr Hc. unfold on_close. rewrite Hr, Hc. cbn zeta.
  unfold timers_at_exit. by destruct (run_mode r).
Qed.

Lemma on_close_ok rid r code w :
  runs w !! rid = Some r -> run_child r = true ->
  tolerated code r (user w) = true ->
  let w' := on_close chalk options rid code w in
  timers w' = <[next w := {| timer_callback :=
                               SnapTick (run_label r) (getPct (run_render r) w)
                                        (done_label code r (user w)) 0 (Some rid);
                             timer_delay := snapInterval |}]> (timers_at_exit r w)
  /\ frameIdx w' = frameIdx w /\ output w' = output w /\ pcts w' = pcts w
  /\ runs w' = <[rid := set_run_child false r]> (runs w)
  /\ next w' = S (next w)
  /\ trace w' = trace w ++ exit_calls code r ++ done_calls r.
Proof.
  intros Hr Hc Hok w'. unfold w'. rewrite (on_close_unfold _ _ _ _ Hr Hc). cbn zeta.
  set (w3 := set_timers _ _).
  destruct (exit_ok_spec code r w3) as (Hv & Hu & Ht & Hcb).
  destruct (exit_ok code (run_tolerateFailure r) w3) as [ok w4]. cbn [fst snd] in *.
  change (user w3) with (user w) in *. rewrite Hv, Hok.
  destruct (resolve_doneLabel_spec r w4) as (Hf & Ht' & Hcb').
  destruct (resolve_doneLabel (run_doneLabel r) w4) as [final w5]. cbn [fst snd] in *.
  destruct Hcb as (A1 & A2 & A3 & A4 & A5 & A6 & A7).
  destruct Hcb' as (B1 & B2 & B3 & B4 & B5 & B6 & B7).
  unfold snapTo100, getPct, getPct_cell. world_simpl.
  rewrite B5, A5, B1, A1, B3, A3, B4, A4, B6, A6, B7, A7, Ht', Ht.
  assert (Hfinal : final = done_label code r (user w)).
  { rewrite Hf. unfold done_label. by rewrite Hu. }
  rewrite Hfinal, <- app_assoc. by repeat split.
Qed.

Lemma on_close_failed rid r code w :
  runs w !! rid = Some r -> run_child r = true ->
  tolerated code r (user w) = false ->
  let w' := on_close chalk options rid code w in
  timers w' = timers_at_exit r w
  /\ frameIdx w' = frameIdx w
  /\ output w' = output w ++ failure_report chalk options r
  /\ pcts w' = pcts w
  /\ runs w' = <[rid := set_run_promise (Rejected (CommandFailed code))
                          (set_run_child false r)]> (runs w)
  /\ next w' = next w
  /\ trace w' = trace w ++ exit_calls code r.
Proof.
  intros Hr Hc Hok w'. unfold w'. rewrite (on_close_unfold _ _ _ _ Hr Hc). cbn zeta.
  set (w3 := set_timers _ _).
  destruct (exit_ok_spec code r w3) as (Hv & Hu & Ht & Hcb).
  destruct (exit_ok code (run_tolerateFailure r) w3) as [ok w4]. cbn [fst snd] in *.
  change (user w3) with (user w) in *. rewrite Hv, Hok.
  destruct Hcb as (A1 & A2 & A3 & A4 & A5 & A6 & A7).
  unfold failure_report.
  destruct (string_truthy (trim (run_stderr r))); world_simpl;
    rewrite ?A5, ?A1, ?A3, ?A4, ?A6, ?A7, ?Ht, <- ?app_assoc;
    repeat split; try done; unfold w3; world_simpl; by rewrite alter_insert_eq.
Qed.

Lemma fire_cleared (Math_exp_rational : Q -> Q) id w :
  timers w !! id = None -> fire chalk options Math_exp_rational id w = w.
Proof. intros H. unfold fire. by rewrite H. Qed.

Lemma fire_cleared_iter (Math_exp_rational : Q -> Q) id w (k : nat) :
  timers w !! id = None ->
  Nat.iter k (fire chalk options Math_exp_rational id) w = w.
Proof.
  intros H. induction k as [| k IH]; [done |].
  simpl Nat.iter. rewrite IH. by apply fire_cleared.
Qed.

Lemma filledCount_rational (a : Q) :
  filledCount options (Num a)
  = Number.of_Z (Qfloor (inject_Z (Z.of_nat (barWidth options)) * Qmax 0 (Qmin 1 a)
                         + (1 # 2))).
Proof. reflexivity. Qed.

Lemma percent_rational (a : Q) :
  Number.round (Number.mul (Num a) (Number.of_Z 100))
  = Number.of_Z (Qfloor (a * 100 + (1 # 2))).
Proof. reflexivity. Qed.

Lemma filledCount_eqv (a b : Q) :
  (a == b)%Q -> filledCount options (Num a) = filledCount options (Num b).
Proof.
  intros Hab. rewrite !filledCount_rational. f_equal.
  apply Qfloor_comp. by rewrite Hab.
Qed.

Lemma paint_text_eqv (idx : nat) label (x y : number) :
  Number.eqv x y -> paint_text chalk options idx label x = paint_text chalk options idx label y.
Proof.
  destruct x as [a | | |], y as [b | | |]; cbn [Number.eqv]; try done. intros Hab.
  unfold paint_text, renderBar, emptyCount. rewrite (filledCount_eqv a b Hab).
  rewrite !percent_rational.
  replace (Qfloor (a * 100 + (1 # 2))) with (Qfloor (b * 100 + (1 # 2))); [done |].
  apply Qfloor_comp. by rewrite Hab.
Qed.



(** What [runEstimated] and [runTracked] set up: one [spawn], and a run whose
    child is alive and whose promise is pending. *)
Lemma runTracked_launches (o : TrackedOptions) w :
  let rid := fst (runTracked chalk options o w) in
  let w' := snd (runTracked chalk options o w) in
  trace w' = trace w ++ [CallSpawn (t_command o) (t_cwd o)]
  /\ exists r, runs w' !! rid = Some r
       /\ run_child r = true /\ run_promise r = Pending
       /\ run_label r = t_label o /\ run_stderr r = EmptyString
       /\ run_tolerateFailure r = t_tolerateFailure o
       /\ run_doneLabel r = t_doneLabel o
       /\ run_mode r = Tracked (t_total o) (t_onOutput o) (t_parseProgress o)
       /\ (h_timer (run_render r) < next w')%nat.
Proof.
  cbn. split; [done |]. eexists. rewrite lookup_insert_eq.
  repeat split. cbn. lia.
Qed.

Lemma runEstimated_launches (o : EstimatedOptions) w :
  let rid := fst (runEstimated chalk options o w) in
  let w' := snd (runEstimated chalk options o w) in
  trace w' = trace w ++ [CallSpawn (e_command o) (e_cwd o)]
  /\ exists r, runs w' !! rid = Some r
       /\ run_child r = true /\ run_promise r = Pending
       /\ run_label r = e_label o /\ run_stderr r = EmptyString
       /\ run_tolerateFailure r = e_tolerateFailure o
       /\ run_doneLabel r = e_doneLabel o
       /\ (exists pctInterval, run_mode r = Estimated pctInterval)
       /\ (h_timer (run_render r) < next w')%nat.
Proof.
  cbn. split; [done |]. eexists. rewrite lookup_insert_eq.
  repeat split; [by eexists | cbn; lia].
Qed.

Section Snap.

Variable Math_exp_rational : Q -> Q.
Variables (rid : nat) (r : Run E) (code : Z) (w : World E).

Hypothesis Hrun : runs w !! rid = Some r.
Hypothesis Hchild : run_child r = true.
Hypothesis Hok : tolerated code r (user w) = true.

Let label := run_label r.
Let c := getPct (run_render r) w.
Let w' := on_close chalk options rid code w.
Let after (k : nat) := Nat.iter k (fire chalk options Math_exp_rational (next w)) w'.

Lemma close_starts_snap :
  snapping chalk options (next w) snapInterval label c (done_label code r (user w))
           (Some rid) 0 w' w'.
Proof using Hrun Hchild Hok.
  destruct (on_close_ok rid r code w Hrun Hchild Hok) as (Ht & _).
  unfold snapping, snap_frames. cbn [seq map paint_lines].
  fold w' in Ht. rewrite app_nil_r, Nat.add_0_r.
  split; [| by repeat split].
  symmetry. apply insert_id. rewrite Ht. apply lookup_insert_eq.
Qed.

Lemma snap_output_before (k : nat) :
  (k < totalFrames)%nat ->
  output (after k)
  = output w ++ paint_lines chalk options (frameIdx w) (snap_frames label c k)
  /\ runs (after k) = <[rid := set_run_child false r]> (runs w)
  /\ timers (after k) !! next w
     = Some {| timer_callback := SnapTick label c (done_label code r (user w)) k (Some rid);
               timer_delay := snapInterval |}.
Proof using Hrun Hchild Hok.
  intros Hk.
  destruct (snapping_iter Math_exp_rational _ _ _ _ _ _ _ _ k close_starts_snap Hk)
    as (Ht & _ & Ho & _ & Hr & _).
  destruct (on_close_ok rid r code w Hrun Hchild Hok) as (_ & Hf & Hout & _ & Hruns & _).
  fold w' in Hf, Hout, Hruns. fold (after k) in Ht, Ho, Hr.
  rewrite Ho, Hr, Ht, Hout, Hf, Hruns, lookup_insert_eq. done.
Qed.

Lemma snap_output_done :
  output (after totalFrames)
  = output w ++ paint_lines chalk options (frameIdx w) (snap_frames label c totalFrames)
    ++ [StdoutWrite (succeed_text chalk options
                       (or_label (done_label code r (user w)) label))]
  /\ runs (after totalFrames)
     = <[rid := set_run_promise Fulfilled (set_run_child false r)]> (runs w)
  /\ timers (after totalFrames) = delete (next w) (timers_at_exit r w).
Proof using Hrun Hchild Hok.
  assert (H7 : (totalFrames - 1 < totalFrames)%nat) by (unfold totalFrames; lia).
  pose proof (snapping_iter Math_exp_rational _ _ _ _ _ _ _ _ _ close_starts_snap H7) as Hs.
  destruct (snapping_last Math_exp_rational _ _ _ _ _ _ _ _ Hs)
    as (Ht & _ & Ho & _ & Hr & _).
  destruct (on_close_ok rid r code w Hrun Hchild Hok) as (Htw & Hf & Hout & _ & Hruns & _).
  assert (Hlast : after totalFrames
                  = fire chalk options Math_exp_rational (next w)
                      (Nat.iter (totalFrames - 1)
                         (fire chalk options Math_exp_rational (next w)) w')).
  { unfold after. exact (Nat.iter_succ (totalFrames - 1) _ _). }
  fold w' in Hf, Hout, Hruns, Htw. rewrite Hlast.
  rewrite Ho, Hr, Ht, Hout, Hf, Hruns, Htw, alter_insert_eq, delete_insert_eq.
  done.
Qed.

End Snap.




(** *** What every step leaves alone *)

Lemma trace_paint label pct w : trace (paint chalk options label pct w) = trace w.
Proof. reflexivity. Qed.

Lemma trace_fire (Math_exp_rational : Q -> Q) id w :
  trace (fire chalk options Math_exp_rational id w) = trace w.
Proof.
  unfold fire. destruct (timers w !! id) as [[cb delay] |]; [| done].
  destruct cb as [label cell | cell startTime adjustedMs | label c final f waiter];
    cbn [timer_callback timer_delay]; try done.
  unfold snap_tick. destruct (totalFrames <=? S f)%nat; [| done].
  by destruct waiter.
Qed.

Lemma trace_on_data rid text isStderr w :
  exists l, trace (on_data rid text isStderr w) = trace w ++ l
            /\ Forall (fun c => c = CallParseProgress text \/ c = CallOnOutput text) l.
Proof.
  unfold on_data. destruct (runs w !! rid) as [r |];
    [| exists []; by rewrite app_nil_r].
  destruct (run_child r); [| exists []; by rewrite app_nil_r].
  destruct (run_mode r) as [pctInterval | total onOutput parseProgress].
  - exists []. rewrite app_nil_r. by destruct isStderr.
  - unfold processData.
    set (w0 := collect_stderr rid text isStderr w).
    assert (H0 : trace w0 = trace w) by (unfold w0; by destruct isStderr).
    set (w1 := apply_parseProgress (run_render r) parseProgress text w0).
    assert (H1 : exists l1, trace w1 = trace w ++ l1
                 /\ Forall (fun c => c = CallParseProgress text \/ c = CallOnOutput text) l1).
    { unfold w1, apply_parseProgress. destruct parseProgress as [parse |].
      - exists [CallParseProgress text]. split; [| by repeat constructor; left].
        change (user (log (CallParseProgress text) w0)) with (user w0).
        destruct (parse text (user w0)) as [u [| | v]]; cbn; by rewrite H0.
      - exists []. by rewrite app_nil_r. }
    destruct H1 as (l1 & H1 & F1).
    unfold apply_onOutput. destruct onOutput as [observe |].
    + exists (l1 ++ [CallOnOutput text]). rewrite trace_run_bar. cbn. rewrite H1.
      split; [by rewrite app_assoc |].
      apply Forall_app. split; [done | by repeat constructor; right].
    + by exists l1.
Qed.

Lemma cancelled_keep id w w' :
  next w' = next w -> timers w' = timers w -> cancelled id w -> cancelled id w'.
Proof. unfold cancelled. by intros -> ->. Qed.

Lemma cancelled_setInterval id cb delay w :
  cancelled id w -> cancelled id (snd (setInterval cb delay w)).
Proof.
  intros [Hlt Hnone]. split; world_simpl; [lia |].
  by rewrite lookup_insert_ne by lia.
Qed.

Lemma cancelled_clearInterval id id' w :
  cancelled id w -> cancelled id (clearInterval id' w).
Proof.
  intros [Hlt Hnone]. split; world_simpl; [done |].
  apply lookup_delete_None. by right.
Qed.

Lemma cancelled_start id label p w :
  cancelled id w -> cancelled id (snd (start chalk options label p w)).
Proof.
  intros [Hlt Hnone]. split; cbn; [lia |]. by rewrite lookup_insert_ne by lia.
Qed.

Lemma cancelled_fire (Math_exp_rational : Q -> Q) id id' w :
  cancelled id w -> cancelled id (fire chalk options Math_exp_rational id' w).
Proof.
  intros Hc. unfold fire. destruct (timers w !! id') as [[cb delay] |] eqn:Hid'; [| done].
  destruct cb as [label cell | cell startTime adjustedMs | label c final f waiter];
    cbn [timer_callback timer_delay]; try by eapply cancelled_keep.
  assert (Hne : id' <> id) by (intros ->; destruct Hc; congruence).
  destruct Hc as [Hlt Hnone]. unfold snap_tick.
  destruct (totalFrames <=? S f)%nat; [destruct waiter |]; split; world_simpl;
    rewrite ?lookup_delete_ne, ?lookup_insert_ne by done; done.
Qed.

Lemma cancelled_on_data id rid text isStderr w :
  cancelled id w -> cancelled id (on_data rid text isStderr w).
Proof.
  destruct (quiet_on_data rid text isStderr w) as (_ & _ & Ht & Hn & _).
  by apply cancelled_keep.
Qed.

Lemma cancelled_on_close id rid code w :
  cancelled id w -> cancelled id (on_close chalk options rid code w).
Proof.
  intros Hc. destruct (runs w !! rid) as [r |] eqn:Hr;
    [| unfold on_close; by rewrite Hr].
  destruct (run_child r) eqn:Hchild; [| unfold on_close; by rewrite Hr, Hchild].
  assert (Hexit : timers_at_exit r w !! id = None).
  { unfold timers_at_exit. destruct Hc as [_ Hnone].
    apply lookup_delete_None. right.
    destruct (run_mode r); [apply lookup_delete_None; by right | done]. }
  destruct Hc as [Hlt Hnone].
  destruct (tolerated code r (user w)) eqn:Hok.
  - destruct (on_close_ok rid r code w Hr Hchild Hok) as (Ht & _ & _ & _ & _ & Hn & _).
    split; [lia |]. by rewrite Ht, lookup_insert_ne by lia.
  - destruct (on_close_failed rid r code w Hr Hchild Hok) as (Ht & _ & _ & _ & _ & Hn & _).
    split; [lia |]. by rewrite Ht.
Qed.

Lemma cancelled_step (Math_exp_rational : Q -> Q) id (e : Event E) w :
  cancelled id w -> cancelled id (step chalk options Math_exp_rational e w).
Proof.
  intros Hc.
  destruct e as [label pct | label | label | label | label | label initialPct
                | h v | h | label currentPct finalLabel | o | o
                | id' | rid text | rid text | rid code | ms | f]; cbn [step].
  - exact (cancelled_keep id w _ eq_refl eq_refl Hc).
  - exact (cancelled_keep id w _ eq_refl eq_refl Hc).
  - exact (cancelled_keep id w _ eq_refl eq_refl Hc).
  - exact (cancelled_keep id w _ eq_refl eq_refl Hc).
  - exact (cancelled_keep id w _ eq_refl eq_refl Hc).
  - by apply cancelled_start.
  - exact (cancelled_keep id w _ eq_refl eq_refl Hc).
  - by apply cancelled_clearInterval.
  - by apply cancelled_setInterval.
  - destruct Hc as [Hlt Hnone]. split; cbn; [lia |]. by rewrite !lookup_insert_ne by lia.
  - destruct Hc as [Hlt Hnone]. split; cbn; [lia |]. by rewrite !lookup_insert_ne by lia.
  - by apply cancelled_fire.
  - by apply cancelled_on_data.
  - by apply cancelled_on_data.
  - by apply cancelled_on_close.
  - exact (cancelled_keep id w _ eq_refl eq_refl Hc).
  - exact (cancelled_keep id w _ eq_refl eq_refl Hc).
Qed.

Lemma cancelled_exec (Math_exp_rational : Q -> Q) id (events : list (Event E)) w :
  cancelled id w -> cancelled id (exec chalk options Math_exp_rational events w).
Proof.
  revert w. induction events as [| e events IH]; intros w Hc; [done |].
  cbn [exec fold_left]. apply IH. by apply cancelled_step.
Qed.

(** [tolerateFailure] is called by no step other than the close handler. *)
Lemma tolerate_only_on_close (Math_exp_rational : Q -> Q) (e : Event E) w :
  (forall rid code, e <> ChildClose rid code) ->
  exists l, trace (step chalk options Math_exp_rational e w) = trace w ++ l
            /\ CallTolerateFailure ∉ l.
Proof.
  intros Hne. destruct e; cbn [step];
    try (exists []; split; [by rewrite app_nil_r | by apply not_elem_of_nil]).
  - eexists [_]. split; [reflexivity | by apply not_elem_of_cons; split; [| apply not_elem_of_nil]].
  - eexists [_]. split; [reflexivity | by apply not_elem_of_cons; split; [| apply not_elem_of_nil]].
  - exists []. rewrite trace_fire, app_nil_r. split; [done | apply not_elem_of_nil].
  - destruct (trace_on_data rid text false w) as (l & Hl & Fl). exists l. split; [done |].
    intros Hin. rewrite Forall_forall in Fl. by destruct (Fl _ Hin).
  - destruct (trace_on_data rid text true w) as (l & Hl & Fl). exists l. split; [done |].
    intros Hin. rewrite Forall_forall in Fl. by destruct (Fl _ Hin).
  - by destruct (Hne rid code).
Qed.

(** *** Reachable worlds are well formed *)

Lemma well_formed_keep w w' :
  next w' = next w -> timers w' = timers w ->
  (forall rid r', runs w' !! rid = Some r' ->
     exists r, runs w !! rid = Some r /\ run_render r' = run_render r) ->
  well_formed w -> well_formed w'.
Proof.
  intros Hn Ht Hr [Hfree Hruns]. split.
  - intros id Hid. rewrite Ht. apply Hfree. lia.
  - intros rid r' H'. destruct (Hr _ _ H') as (r & H & ->). rewrite Hn. by eapply Hruns.
Qed.

Lemma well_formed_createProgress (t0 : Z) (u : E) : well_formed (createProgress t0 u).
Proof. split; [done |]. intros rid r H. cbn in H. by rewrite lookup_empty in H. Qed.

Lemma well_formed_start label p w :
  well_formed w -> well_formed (snd (start chalk options label p w)).
Proof.
  intros [Hfree Hruns]. split; cbn.
  - intros id Hid. rewrite lookup_insert_ne by lia. apply Hfree. lia.
  - intros rid r H. specialize (Hruns _ _ H). lia.
Qed.

Lemma well_formed_fire (Math_exp_rational : Q -> Q) id w :
  well_formed w -> well_formed (fire chalk options Math_exp_rational id w).
Proof.
  intros Hwf. unfold fire. destruct (timers w !! id) as [[cb delay] |] eqn:Hid; [| done].
  destruct cb as [label cell | cell startTime adjustedMs | label c final f waiter];
    cbn [timer_callback timer_delay];
    try (eapply well_formed_keep; [done | done | by eauto | done]).
  destruct Hwf as [Hfree Hruns].
  assert (Hlt : (id < next w)%nat).
  { destruct (Nat.lt_ge_cases id (next w)) as [? | Hge]; [done |].
    rewrite (Hfree _ Hge) in Hid. discriminate. }
  unfold snap_tick.
  destruct (totalFrames <=? S f)%nat; [destruct waiter as [rid |] |]; split; world_simpl.
  - intros id' Hid'. rewrite lookup_delete_ne, lookup_insert_ne by lia. by apply Hfree.
  - intros rid' r' H'. destruct (decide (rid = rid')) as [-> | Hne].
    + rewrite lookup_alter_eq in H'. destruct (runs w !! rid') as [r0 |] eqn:H0; [| done].
      inversion H'; subst. by apply (Hruns _ _ H0).
    + rewrite lookup_alter_ne in H' by done. by eapply Hruns.
  - intros id' Hid'. rewrite lookup_delete_ne, lookup_insert_ne by lia. by apply Hfree.
  - done.
  - intros id' Hid'. rewrite lookup_insert_ne by lia. by apply Hfree.
  - done.
Qed.

Lemma well_formed_on_data rid text isStderr w :
  well_formed w -> well_formed (on_data rid text isStderr w).
Proof.
  intros [Hfree Hruns].
  destruct (quiet_on_data rid text isStderr w) as (_ & _ & Ht & Hn & _ & Hq & Hnone).
  split.
  - intros id Hid. rewrite Ht. apply Hfree. lia.
  - intros rid' r' H'. rewrite Hn.
    destruct (runs w !! rid') as [r0 |] eqn:H0.
    + destruct (Hq _ _ H0) as (r1 & H1 & _ & Hrender & _).
      rewrite H1 in H'. inversion H'; subst. rewrite Hrender. by eapply Hruns.
    + rewrite (Hnone _ H0) in H'. discriminate.
Qed.

Lemma well_formed_on_close rid code w :
  well_formed w -> well_formed (on_close chalk options rid code w).
Proof.
  intros [Hfree Hruns]. destruct (runs w !! rid) as [r |] eqn:Hr;
    [| unfold on_close; by rewrite Hr].
  destruct (run_child r) eqn:Hchild; [| unfold on_close; by rewrite Hr, Hchild].
  assert (Hexit : forall id, (next w <= id)%nat -> timers_at_exit r w !! id = None).
  { intros id Hid. unfold timers_at_exit. apply lookup_delete_None. right.
    destruct (run_mode r); [apply lookup_delete_None; right |]; by apply Hfree. }
  assert (Hins : forall r0 rid' r',
            run_render r0 = run_render r ->
            <[rid := r0]> (runs w) !! rid' = Some r' ->
            (h_timer (run_render r') < next w)%nat).
  { intros r0 rid' r' Hrender H'. destruct (decide (rid = rid')) as [-> | Hne].
    - rewrite lookup_insert_eq in H'. inversion H'; subst. rewrite Hrender. by eapply Hruns.
    - rewrite lookup_insert_ne in H' by done. by eapply Hruns. }
  destruct (tolerated code r (user w)) eqn:Hok.
  - destruct (on_close_ok rid r code w Hr Hchild Hok) as (Ht & _ & _ & _ & Hrs & Hn & _).
    split.
    + intros id Hid. rewrite Ht, lookup_insert_ne by lia. apply Hexit. lia.
    + intros rid' r' H'. rewrite Hrs in H'. rewrite Hn.
      pose proof (Hins (set_run_child false r) _ _ eq_refl H'). lia.
  - destruct (on_close_failed rid r code w Hr Hchild Hok) as (Ht & _ & _ & _ & Hrs & Hn & _).
    split.
    + intros id Hid. rewrite Ht. apply Hexit. lia.
    + intros rid' r' H'. rewrite Hrs in H'. rewrite Hn.
      exact (Hins (set_run_promise (Rejected (CommandFailed code)) (set_run_child false r))
               _ _ eq_refl H').
Qed.

Lemma well_formed_same w w' :
  next w' = next w -> timers w' = timers w -> runs w' = runs w ->
  well_formed w -> well_formed w'.
Proof.
  intros Hn Ht Hr [Hfree Hruns]. split.
  - intros id Hid. rewrite Ht. apply Hfree. lia.
  - intros rid r H. rewrite Hr in H. rewrite Hn. by eapply Hruns.
Qed.

Lemma well_formed_step (Math_exp_rational : Q -> Q) (e : Event E) w :
  well_formed w -> well_formed (step chalk options Math_exp_rational e w).
Proof.
  intros Hwf.
  destruct e as [label pct | label | label | label | label | label initialPct
                | h v | h | label currentPct finalLabel | o | o
                | id' | rid text | rid text | rid code | ms | f]; cbn [step].
  - exact (well_formed_same w _ eq_refl eq_refl eq_refl Hwf).
  - exact (well_formed_same w _ eq_refl eq_refl eq_refl Hwf).
  - exact (well_formed_same w _ eq_refl eq_refl eq_refl Hwf).
  - exact (well_formed_same w _ eq_refl eq_refl eq_refl Hwf).
  - exact (well_formed_same w _ eq_refl eq_refl eq_refl Hwf).
  - by apply well_formed_start.
  - exact (well_formed_same w _ eq_refl eq_refl eq_refl Hwf).
  - destruct Hwf as [Hfree Hruns]. split; [| exact Hruns].
    intros id Hid. apply lookup_delete_None. right. by apply Hfree.
  - destruct Hwf as [Hfree Hruns]. split.
    + intros id Hid. cbn in Hid |- *. rewrite lookup_insert_ne by lia. apply Hfree. lia.
    + intros rid r H. specialize (Hruns _ _ H). cbn. lia.
  - destruct Hwf as [Hfree Hruns]. split; cbn.
    + intros id Hid. rewrite !lookup_insert_ne by lia. apply Hfree. lia.
    + intros rid r H. destruct (decide (rid = S (S (S (next w))))) as [-> | Hne].
      * rewrite lookup_insert_eq in H. inversion H; subst. cbn. lia.
      * rewrite lookup_insert_ne in H by done. specialize (Hruns _ _ H). lia.
  - destruct Hwf as [Hfree Hruns]. split; cbn.
    + intros id Hid. rewrite !lookup_insert_ne by lia. apply Hfree. lia.
    + intros rid r H. destruct (decide (rid = S (S (next w)))) as [-> | Hne].
      * rewrite lookup_insert_eq in H. inversion H; subst. cbn. lia.
      * rewrite lookup_insert_ne in H by done. specialize (Hruns _ _ H). lia.
  - by apply well_formed_fire.
  - by apply well_formed_on_data.
  - by apply well_formed_on_data.
  - by apply well_formed_on_close.
  - exact (well_formed_same w _ eq_refl eq_refl eq_refl Hwf).
  - exact (well_formed_same w _ eq_refl eq_refl eq_refl Hwf).
Qed.

(** Every world the engine can reach from [createProgress] is well formed:
    there the id a handler is about to allocate carries no timer, and the
    render timer of every run is older than it. *)
Lemma reachable_well_formed (Math_exp_rational : Q -> Q) (events : list (Event E))
      (t0 : Z) (u : E) :
  well_formed (exec chalk options Math_exp_rational events (createProgress t0 u)).
Proof.
  assert (H : forall w, well_formed w ->
                well_formed (exec chalk options Math_exp_rational events w)).
  { induction events as [| e events IH]; intros w Hwf; [done |].
    cbn [exec fold_left]. apply IH. by apply well_formed_step. }
  apply H, well_formed_createProgress.
Qed.

Lemma stop_cancelled (h : Handle) w : timers w !! h_timer h = None -> stop h w = w.
Proof.
  intros Hnone. unfold stop, clearInterval. rewrite (delete_id _ _ Hnone). by destruct w.
Qed.

Lemma stop_cancels (h : Handle) w : timers (stop h w) !! h_timer h = None.
Proof. apply lookup_delete_eq. Qed.

(** C10. [stop] is idempotent: a second call, or any number of further
    calls, leaves the engine exactly as the first call left it, since
    clearing an interval that is not active changes nothing.  This still
    holds for the handle [start] returned when other work (paints, timers
    firing, other bars and runs, child output) happens between the calls. *)
Theorem stop_is_idempotent (Math_exp_rational : Q -> Q) (h : Handle) w :
  stop h (stop h w) = stop h w
  /\ (forall k : nat, Nat.iter (S k) (stop h) w = stop h w)
  /\ (timers w !! h_timer h = None -> stop h w = w)
  /\ (forall label p (events : list (Event E)),
        let started := start chalk options label p w in
        let w1 := exec chalk options Math_exp_rational events
                    (stop (fst started) (snd started)) in
        stop (fst started) w1 = w1).
Proof.
  assert (Htwice : forall w0, stop h (stop h w0) = stop h w0).
  { intros w0. apply stop_cancelled, stop_cancels. }
  split; [apply Htwice |].
  split. { induction k as [| k IH]; [done |].
           rewrite Nat.iter_succ, IH. apply Htwice. }
  split; [apply stop_cancelled |].
  intros label p events started w1. apply stop_cancelled.
  assert (Hc : cancelled (h_timer (fst started)) (stop (fst started) (snd started))).
  { split; [cbn; lia | apply stop_cancels]. }
  by destruct (cancelled_exec Math_exp_rational _ events _ Hc).
Qed.

Lemma tolerated_iff code r (u : E) :
  tolerated code r u = true
  <-> code = 0%Z
      \/ exists tolerate, run_tolerateFailure r = Some tolerate /\ snd (tolerate u) = true.
Proof.
  unfold tolerated. destruct (Z.eqb_spec code 0) as [-> | Hne]; cbn.
  - split; [by left | done].
  - destruct (run_tolerateFailure r) as [tolerate |]; split.
    + intros H. right. by exists tolerate.
    + intros [? | (t & Ht & H)]; [done |]. by inversion Ht; subst.
    + done.
    + by intros [? | (t & Ht & _)].
Qed.

(** C1 (as the code has it). When the child of a run, estimated or tracked,
    closes with exit code [code], the handler decides on the spot: the run
    succeeds exactly when [code] is 0 or a supplied [tolerateFailure], called
    then on the caller's state of that moment (and by no earlier step),
    returns true.  A successful run stays pending during the snap and is
    resolved by its eighth frame.  A failed run prints the failure line,
    then the trimmed stderr text in red when that text has a character other
    than white space, and rejects at once with [CommandFailed code]; nothing
    is spawned or scheduled again, and later events of that child are
    ignored. *)
Theorem close_settles_run (Math_exp_rational : Q -> Q) rid r code w :
  runs w !! rid = Some r -> run_child r = true -> run_promise r = Pending ->
  timers w !! next w = None ->
  let ok := tolerated code r (user w) in
  let w' := on_close chalk options rid code w in
  let after (k : nat) := Nat.iter k (fire chalk options Math_exp_rational (next w)) w' in
  let promise (x : World E) := run_promise <$> runs x !! rid in
  fst (exit_ok code (run_tolerateFailure r) w) = ok
  /\ (ok = true
      <-> code = 0%Z
          \/ exists tolerate,
               run_tolerateFailure r = Some tolerate /\ snd (tolerate (user w)) = true)
  /\ (forall (e : Event E) x, (forall rid' code', e <> ChildClose rid' code') ->
        exists l, trace (step chalk options Math_exp_rational e x) = trace x ++ l
                  /\ CallTolerateFailure ∉ l)
  /\ (promise (after totalFrames) = Some Fulfilled <-> ok = true)
  /\ (promise (after totalFrames) = Some (Rejected (CommandFailed code)) <-> ok = false)
  /\ (ok = true ->
        output w' = output w
        /\ trace w' = trace w ++ exit_calls code r ++ done_calls r
        /\ forall k : nat, (k < totalFrames)%nat -> promise (after k) = Some Pending)
  /\ (ok = false ->
        promise w' = Some (Rejected (CommandFailed code))
        /\ error_message (CommandFailed code)
           = "Command failed with exit code " +:+ NilZero.string_of_int (Z.to_int code)
        /\ output w'
           = output w
             ++ StdoutWrite (fail_text chalk options (run_label r))
                :: (if string_truthy (trim (run_stderr r))
                    then [ConsoleError (red chalk (LF +:+ trim (run_stderr r) +:+ LF) +:+ LF)]
                    else [])
        /\ trace w' = trace w ++ exit_calls code r
        /\ timers w' = timers_at_exit r w
        /\ next w' = next w
        /\ (forall text isStderr, on_data rid text isStderr w' = w')
        /\ (forall code', on_close chalk options rid code' w' = w')
        /\ (forall k : nat, after k = w')).
Proof.
  intros Hr Hc Hp Hfree ok w' after promise.
  destruct (exit_ok_spec code r w) as (Hv & _).
  split; [exact Hv |].
  split; [apply tolerated_iff |].
  split; [intros e x; apply tolerate_only_on_close |].
  destruct ok eqn:Hok; subst ok.
  - destruct (on_close_ok rid r code w Hr Hc Hok) as (_ & _ & Hout & _ & _ & _ & Htr).
    destruct (snap_output_done Math_exp_rational rid r code w Hr Hc Hok) as (_ & Hruns & _).
    assert (Hful : promise (after totalFrames) = Some Fulfilled).
    { unfold promise, after, w'. by rewrite Hruns, lookup_insert_eq. }
    split; [done |]. split; [rewrite Hful; split; [done | discriminate] |].
    split; [| done]. intros _. split; [exact Hout |]. split; [exact Htr |].
    intros k Hk.
    destruct (snap_output_before Math_exp_rational rid r code w Hr Hc Hok k Hk)
      as (_ & Hk' & _).
    unfold promise, after, w'. rewrite Hk', lookup_insert_eq. cbn. by rewrite Hp.
  - destruct (on_close_failed rid r code w Hr Hc Hok)
      as (Ht & _ & Hout & _ & Hruns & Hn & Htr).
    fold w' in Ht, Hout, Hruns, Hn, Htr.
    assert (Hrej : promise w' = Some (Rejected (CommandFailed code))).
    { unfold promise. by rewrite Hruns, lookup_insert_eq. }
    assert (Hafter : forall k, after k = w').
    { intros k. apply fire_cleared_iter. rewrite Ht. unfold timers_at_exit.
      apply lookup_delete_None. right.
      destruct (run_mode r); [apply lookup_delete_None; by right | done]. }
    assert (Hclosed : exists r', runs w' !! rid = Some r' /\ run_child r' = false).
    { eexists. rewrite Hruns, lookup_insert_eq. done. }
    destruct Hclosed as (r' & Hr' & Hc').
    split; [rewrite Hafter, Hrej; split; [discriminate | done] |].
    split; [rewrite Hafter, Hrej; done |].
    split; [done |]. intros _.
    split; [exact Hrej |]. split; [done |]. split; [exact Hout |].
    split; [exact Htr |]. split; [exact Ht |]. split; [exact Hn |].
    split. { intros text isStderr. unfold on_data. by rewrite Hr', Hc'. }
    split. { intros code'. unfold on_close. by rewrite Hr', Hc'. }
    exact Hafter.
Qed.

End Completion.

(** ** The easing curve *)





(** With an estimate of zero the quotient is infinite as soon as time has
    passed, [Math.exp] gives 0, and the sampler stores 0.9. *)
Lemma sample_tick_zero_estimate {E : Type} (Math_exp_rational : Q -> Q)
      (cell : nat) (startTime : Z) (w : World E) :
  (startTime < now w)%Z ->
  Number.eqv (getPct_cell cell (sample_tick Math_exp_rational cell startTime (Num 0) w))
             (Num (9 # 10)).
Proof.
  intros Hlt.
  assert (Hs : Number.sign (inject_Z (now w - startTime)) = Gt).
  { unfold Number.sign. apply Qgt_alt. change 0%Q with (inject_Z 0).
    rewrite <- Zlt_Qlt. lia. }
  unfold getPct_cell, sample_tick, setPct_cell. cbn [pcts set_pcts].
  rewrite lookup_insert_eq. cbn [default].
  unfold Number.div, Number.of_Z. change (Qeq_bool 0 0) with true. cbv iota.
  rewrite Hs. vm_compute. reflexivity.
Qed.

(** [runEstimated] samples every 200 ms, from the clock at the call, with
    [adjustedMs = estimatedMs * (1 + estimateBuffer)]. *)
Lemma runEstimated_sampler {E : Type} (chalk : Chalk) (options : Options)
      (o : EstimatedOptions) (w : World E) :
  timers (snd (runEstimated chalk options o w)) !! S (S (next w))
  = Some {| timer_callback :=
              SampleTick (next w) (now w)
                (Number.mul (e_estimatedMs o)
                   (Number.add (Number.of_Z 1) (Num (estimateBuffer options))));
            timer_delay := 200 |}.
Proof. cbn. by rewrite lookup_insert_eq. Qed.

Lemma easing_ratio_alt (estimatedMs estimateBuffer elapsed : R) :
  Easing.ratio estimatedMs estimateBuffer elapsed
  = (0.9 * (1 - exp (-2.5 * (elapsed / (estimatedMs * (1 + estimateBuffer))))))%R.
Proof. reflexivity. Qed.


(** ** The theorems at concrete inputs *)

Lemma demo_world_run : runs demo_world !! 2%nat = Some demo_run.
Proof. vm_compute. reflexivity. Qed.

(** NaN is not a ratio; handed to [renderBar] it yields no glyph at all, as
    both [repeat] counts are NaN. *)
Lemma renderBar_NaN_is_empty :
  renderBar chalk_plain default_options NaN = EmptyString
  /\ filledCount default_options NaN = NaN
  /\ emptyCount default_options NaN = NaN.
Proof. vm_compute. repeat split. Qed.

(** A bar at one half with the default options: 12 of 24 segments. *)
Lemma renderBar_half :
  renderBar chalk_plain default_options (Num (1 # 2))
  = repeat_string "━" 12 +:+ repeat_string "─" 12.
Proof. vm_compute. reflexivity. Qed.

Lemma close_settles_run_witness :
  runs demo_world !! 2%nat = Some demo_run
  /\ run_child demo_run = true
  /\ run_promise demo_run = Pending
  /\ timers demo_world !! next demo_world = None
  /\ run_promise <$> runs (on_close chalk_plain default_options 2 2 demo_world) !! 2%nat
     = Some (Rejected (CommandFailed 2)).
Proof.
  assert (H1 : runs demo_world !! 2%nat = Some demo_run) by (vm_compute; reflexivity).
  assert (H2 : run_child demo_run = true) by reflexivity.
  assert (H3 : run_promise demo_run = Pending) by reflexivity.
  assert (H4 : timers demo_world !! next demo_world = None) by (vm_compute; reflexivity).
  split; [exact H1 |]. split; [exact H2 |]. split; [exact H3 |]. split; [exact H4 |].
  pose proof (@close_settles_run bool chalk_plain default_options exp_poly
                2%nat demo_run 2%Z demo_world H1 H2 H3 H4) as T.
  cbv zeta in T. destruct T as (_ & _ & _ & _ & _ & _ & Hfail).
  destruct (Hfail eq_refl) as (Hrej & _). exact Hrej.
Defined.

(** With only white space on stderr the text accumulated is not empty, the
    run fails with [CommandFailed 1], and no stderr block is printed: the
    terminal shows the first frame and the failure line, nothing else. *)
Lemma blank_stderr_not_reported :
  run_stderr <$> runs blank_stderr_world !! 2%nat = Some (" " +:+ LF)
  /\ run_promise <$> runs blank_stderr_world !! 2%nat = Some (Rejected (CommandFailed 1))
  /\ output blank_stderr_world
     = [StdoutWrite (paint_text chalk_plain default_options 0 "Build" (Num 0));
        StdoutWrite (fail_text chalk_plain default_options "Build")].
Proof. vm_compute. repeat split. Qed.

(** When stderr carries text, the block printed is that text trimmed, between
    two line feeds, after the failure line. *)
Lemma stderr_block_is_trimmed :
  output (demo_exec [DoRunTracked demo_tracked;
                     ChildStderr 2 ("  boom" +:+ LF); ChildClose 2 1])
  = [StdoutWrite (paint_text chalk_plain default_options 0 "Build" (Num 0));
     StdoutWrite (fail_text chalk_plain default_options "Build");
     ConsoleError (LF +:+ "boom" +:+ LF +:+ LF)].
Proof. vm_compute. reflexivity. Qed.

(** The failure is tolerated once the observer has seen [exists]: the flag
    it raised is read when the child closes. *)
Lemma tolerated_after_observer_raised_flag :
  run_promise
    <$> runs (demo_exec (DoRunTracked demo_tracked
                         :: ChildStderr 2 "already exists"
                         :: ChildClose 2 2 :: repeat (Fire 3) 8)) !! 2%nat
  = Some Fulfilled.
Proof. vm_compute. reflexivity. Qed.

(** Two runs in a row on one engine: the first paints indices 0 to 9 (first
    frame, one render tick, eight snap frames), and the first frame of the
    second run takes index 10, the start of the next cycle. *)
Lemma second_run_continues_cycle :
  frameIdx two_runs_world = 11%nat
  /\ last (output two_runs_world)
     = Some (StdoutWrite (paint_text chalk_plain default_options 10 "Build" (Num 0)))
  /\ spinner_frame default_options 9 = "⠏"
  /\ spinner_frame default_options 10 = "⠋".
Proof. vm_compute. repeat split. Qed.


Lemma parseProgress_sets_ratio_witness :
  runs demo_world !! 2%nat = Some demo_run
  /\ run_child demo_run = true
  /\ run_mode demo_run
     = Tracked (Some (Number.of_Z 10)) (Some demo_observe) (Some demo_parse)
  /\ getPct demo_handle
       (apply_parseProgress demo_handle (Some demo_parse) "50%"
          (collect_stderr 2 "50%" false demo_world))
     = Num (1 # 2).
Proof.
  assert (H1 : runs demo_world !! 2%nat = Some demo_run) by (vm_compute; reflexivity).
  split; [exact H1 |]. split; [reflexivity |]. split; [reflexivity |].
  pose proof (@parseProgress_sets_ratio bool chalk_plain default_options exp_poly
                2%nat demo_run _ _ demo_parse "50%" false demo_world
                H1 eq_refl eq_refl) as T.
  cbv zeta in T. destruct T as (_ & Hm & _). exact (proj1 Hm).
Defined.

Lemma increment_counts_one_witness :
  runs demo_world !! 2%nat = Some demo_run
  /\ run_mode demo_run
     = Tracked (Some (Number.of_Z 10)) (Some demo_observe) (Some demo_parse)
  /\ (0 < 10)%Z
  /\ run_completed <$> runs (increment 2 demo_world) !! 2%nat = Some 1%nat
  /\ getPct demo_handle (increment 2 demo_world) = Num (inject_Z 1 / inject_Z 10).
Proof.
  assert (H1 : runs demo_world !! 2%nat = Some demo_run) by (vm_compute; reflexivity).
  assert (H3 : (0 < 10)%Z) by lia.
  split; [exact H1 |]. split; [reflexivity |]. split; [exact H3 |].
  pose proof (@increment_counts_one bool 2%nat demo_run _ _ _ demo_world H1 eq_refl) as T.
  destruct T as (Hone & _ & Hratio & _).
  split; [exact Hone | exact (Hratio 10%Z H3 eq_refl)].
Defined.



Lemma paint_advances_spinner_witness :
  spinnerFrames default_options <> []
  /\ spinnerFrames default_options
       !! (frameIdx world0 mod length (spinnerFrames default_options))%nat
     = Some (spinner_frame default_options (frameIdx world0)).
Proof.
  assert (H : spinnerFrames default_options <> []) by discriminate.
  split; [exact H |].
  pose proof (@paint_advances_spinner bool chalk_plain default_options
                "Build" (Num 0) world0) as T.
  destruct T as (_ & _ & Hframe & _). exact (Hframe H).
Defined.

Lemma final_states_print_once_witness :
  In (@succeed bool chalk_plain default_options)
     [@succeed bool chalk_plain default_options; @fail bool chalk_plain default_options;
      @info bool chalk_plain default_options; @warn bool chalk_plain default_options]
  /\ timers (succeed chalk_plain default_options "Done" world0) = timers world0.
Proof.
  assert (H : In (@succeed bool chalk_plain default_options)
                 [@succeed bool chalk_plain default_options;
                  @fail bool chalk_plain default_options;
                  @info bool chalk_plain default_options;
                  @warn bool chalk_plain default_options])
    by (left; reflexivity).
  split; [exact H |].
  pose proof (@final_states_print_once bool chalk_plain default_options "Done" world0) as T.
  destruct T as (_ & _ & _ & _ & Hframe). exact (proj1 (Hframe _ H)).
Defined.

(** [succeed] and [fail] do send a carriage return and the erase-line
    sequence, [info] and [warn] do not: it is not the case that all four
    texts leave the line alone. *)
Lemma final_states_do_erase :
  ~ Forall leaves_line_alone (final_state_texts "Done")
  /\ String.prefix CR_ERASE_LINE (succeed_text chalk_plain default_options "Done") = true
  /\ String.prefix CR_ERASE_LINE (fail_text chalk_plain default_options "Done") = true
  /\ leaves_line_alone (info_text chalk_plain default_options "Done")
  /\ leaves_line_alone (warn_text chalk_plain default_options "Done").
Proof.
  split.
  - intros H. inversion H as [| text rest [Hcr _] _]; subst.
    vm_compute in Hcr. discriminate.
  - vm_compute. repeat split.
Qed.

Lemma chunk_callbacks_in_order_witness :
  runs demo_world !! 2%nat = Some demo_run
  /\ run_child demo_run = true
  /\ run_mode demo_run
     = Tracked (Some (Number.of_Z 10)) (Some demo_observe) (Some demo_parse)
  /\ trace (on_data 2 "step" true demo_world)
     = trace demo_world ++ [CallParseProgress "step"; CallOnOutput "step"].
Proof.
  assert (H1 : runs demo_world !! 2%nat = Some demo_run) by (vm_compute; reflexivity).
  split; [exact H1 |]. split; [reflexivity |]. split; [reflexivity |].
  pose proof (@chunk_callbacks_in_order bool chalk_plain default_options exp_poly
                2%nat demo_run _ demo_observe demo_parse "step" true demo_world
                H1 eq_refl eq_refl) as T.
  cbv zeta in T. destruct T as (Htrace & _). exact Htrace.
Defined.

Lemma stop_is_idempotent_witness :
  timers world0 !! h_timer demo_handle = None
  /\ stop demo_handle world0 = world0.
Proof.
  assert (H : timers world0 !! h_timer demo_handle = None) by reflexivity.
  split; [exact H |].
  pose proof (@stop_is_idempotent bool chalk_plain default_options exp_poly
                demo_handle world0) as T.
  destruct T as (_ & _ & Hnoop & _). exact (Hnoop H).
Defined.

(** * Further properties of the engine *)

(** ** The bar and the percentage *)

Lemma Qfloor_integer_plus_half (n : Z) : Qfloor (inject_Z n + (1 # 2)) = n.
Proof.
  apply Z.le_antisymm.
  - assert (Hlt : (inject_Z (Qfloor (inject_Z n + (1 # 2))) < inject_Z (n + 1))%Q).
    { eapply Qle_lt_trans; [apply Qfloor_le |].
      rewrite inject_Z_plus. change (inject_Z 1) with 1%Q. lra. }
    rewrite <- Zlt_Qlt in Hlt. lia.
  - rewrite <- (Qfloor_Z n) at 1. apply Qfloor_resp_le. lra.
Qed.

Lemma Qclamp_monotone (a b : Q) :
  (a <= b)%Q -> (Qmax 0 (Qmin 1 a) <= Qmax 0 (Qmin 1 b))%Q.
Proof.
  intros Hab. apply Q.max_le_compat_l. apply Q.min_le_compat_l. exact Hab.
Qed.

Lemma Qclamp_low (a : Q) : (a <= 0)%Q -> (Qmax 0 (Qmin 1 a) == 0)%Q.
Proof.
  intros Ha. apply Q.max_l. eapply Qle_trans; [apply Q.le_min_r | exact Ha].
Qed.

Lemma Qclamp_high (a : Q) : (1 <= a)%Q -> (Qmax 0 (Qmin 1 a) == 1)%Q.
Proof.
  intros Ha. rewrite (Q.min_l 1 a Ha). apply Q.max_r. lra.
Qed.

Section Bar.

Variable chalk : Chalk.
Variable options : Options.

Let width : Z := Z.of_nat (barWidth options).

(** The number of filled segments of the bar for a rational ratio. *)
Let segments (r : Q) : Z := Qfloor (inject_Z width * Qmax 0 (Qmin 1 r) + (1 # 2)).

Lemma renderBar_empty (r : Q) :
  (r <= 0)%Q ->
  renderBar chalk options (Num r)
  = cyan chalk EmptyString
    +:+ dim chalk (repeat_string (emptyChar options) (barWidth options)).
Proof.
  intros H0. unfold renderBar, emptyCount.
  assert (Hseg : segments r = 0%Z).
  { unfold segments. rewrite (Qfloor_comp _ (1 # 2)); [reflexivity |].
    rewrite (Qclamp_low r H0). lra. }
  rewrite filledCount_rational. fold width. fold (segments r). rewrite Hseg.
  destruct (String_repeat_integer (filledChar options) 0 (inject_Z 0)) as [Hf _];
    [reflexivity | lia |].
  destruct (String_repeat_integer (emptyChar options) width
              (inject_Z width + - inject_Z 0)) as [He _]; [| unfold width; lia |].
  { change (inject_Z 0) with 0%Q. lra. }
  unfold Number.sub, Number.neg, Number.add, Number.of_nat, Number.of_Z. fold width.
  rewrite Hf, He. unfold width. by rewrite Nat2Z.id.
Qed.

Lemma renderBar_full (r : Q) :
  (1 <= r)%Q ->
  renderBar chalk options (Num r)
  = cyan chalk (repeat_string (filledChar options) (barWidth options))
    +:+ dim chalk EmptyString.
Proof.
  intros H1. unfold renderBar, emptyCount.
  assert (Hseg : segments r = width).
  { unfold segments. rewrite (Qfloor_comp _ (inject_Z width + (1 # 2))).
    - apply Qfloor_integer_plus_half.
    - rewrite (Qclamp_high r H1). lra. }
  rewrite filledCount_rational. fold width. fold (segments r). rewrite Hseg.
  destruct (String_repeat_integer (filledChar options) width (inject_Z width)) as [Hf _];
    [reflexivity | unfold width; lia |].
  destruct (String_repeat_integer (emptyChar options) 0
              (inject_Z width + - inject_Z width)) as [He _]; [| lia |].
  { change (inject_Z 0) with 0%Q. lra. }
  unfold Number.sub, Number.neg, Number.add, Number.of_nat, Number.of_Z. fold width.
  rewrite Hf, He. unfold width. by rewrite Nat2Z.id.
Qed.

(** X1. The bar never shrinks as the ratio grows, a ratio at or below 0
    draws a bar with every segment empty, and a ratio at or above 1 draws a
    bar with every segment filled. *)
Theorem renderBar_monotone_and_saturating (r1 r2 : Q) :
  (r1 <= r2)%Q ->
  filledCount options (Num r1) = Number.of_Z (segments r1)
  /\ filledCount options (Num r2) = Number.of_Z (segments r2)
  /\ (segments r1 <= segments r2)%Z
  /\ ((r2 <= 0)%Q ->
      renderBar chalk options (Num r2)
      = cyan chalk EmptyString
        +:+ dim chalk (repeat_string (emptyChar options) (barWidth options)))
  /\ ((1 <= r1)%Q ->
      renderBar chalk options (Num r1)
      = cyan chalk (repeat_string (filledChar options) (barWidth options))
        +:+ dim chalk EmptyString).
Proof.
  intros Hle.
  assert (Hw : (0 <= inject_Z width)%Q).
  { change 0%Q with (inject_Z 0). rewrite <- Zle_Qle. unfold width. lia. }
  split; [reflexivity |]. split; [reflexivity |].
  split.
  { apply Qfloor_resp_le. pose proof (Qclamp_monotone r1 r2 Hle). nra. }
  split; [exact (renderBar_empty r2) | exact (renderBar_full r1)].
Qed.


End Bar.



(** ** Handles *)

Section Handles.

Context {E : Type}.
Variable chalk : Chalk.
Variable options : Options.
Variable Math_exp_rational : Q -> Q.

Implicit Types (w : World E) (h : Handle).

Lemma setPct_many h (vs : list number) w :
  let w' := fold_left (fun x u => setPct h u x) vs w in
  timers w' = timers w /\ frameIdx w' = frameIdx w /\ output w' = output w
  /\ next w' = next w /\ runs w' = runs w
  /\ getPct h w' = default (getPct h w) (last vs).
Proof.
  revert w. induction vs as [| u vs IH]; intros w; [done |].
  cbn [fold_left]. destruct (IH (setPct h u w)) as (A & B & C & D & F & G).
  cbn zeta in *. rewrite A, B, C, D, F, G, getPct_setPct, last_cons.
  by destruct (last vs).
Qed.

Lemma next_fire id w : next (fire chalk options Math_exp_rational id w) = next w.
Proof.
  unfold fire. destruct (timers w !! id) as [[cb delay] |]; [| done].
  destruct cb as [label cell | cell startTime adjustedMs | label c final f waiter];
    cbn [timer_callback timer_delay]; try done.
  unfold snap_tick. destruct (totalFrames <=? S f)%nat; [| done]. by destruct waiter.
Qed.

Lemma next_on_close rid code w :
  (next w <= next (on_close chalk options rid code w))%nat.
Proof.
  destruct (runs w !! rid) as [r |] eqn:Hr; [| unfold on_close; by rewrite Hr].
  destruct (run_child r) eqn:Hchild; [| unfold on_close; by rewrite Hr, Hchild].
  destruct (tolerated code r (user w)) eqn:Hok.
  - destruct (on_close_ok chalk options rid r code w Hr Hchild Hok)
      as (_ & _ & _ & _ & _ & Hn & _). lia.
  - destruct (on_close_failed chalk options rid r code w Hr Hchild Hok)
      as (_ & _ & _ & _ & _ & Hn & _). lia.
Qed.

Lemma next_step (e : Event E) w :
  (next w <= next (step chalk options Math_exp_rational e w))%nat.
Proof.
  destruct e as [label pct | label | label | label | label | label initialPct
                | h v | h | label currentPct finalLabel | o | o
                | id' | rid text | rid text | rid code | ms | f]; cbn [step];
    try (cbn; lia).
  - rewrite next_fire. lia.
  - destruct (quiet_on_data rid text false w) as (_ & _ & _ & Hn & _). lia.
  - destruct (quiet_on_data rid text true w) as (_ & _ & _ & Hn & _). lia.
  - apply next_on_close.
Qed.

Lemma next_exec (events : list (Event E)) w :
  (next w <= next (exec chalk options Math_exp_rational events w))%nat.
Proof.
  revert w. induction events as [| e events IH]; intros w; [done |].
  cbn [exec fold_left]. etransitivity; [apply (next_step e) | apply IH].
Qed.

(** X4. [setPct] stores what it is given, clamped or not, and a render tick
    paints the value stored last: after [start] and any number of [setPct]
    calls, [getPct] returns the last value set, nothing has been painted
    since the first frame, and the next firing of the render timer paints
    exactly one frame, at that value and under the label of the bar. *)
Theorem render_tick_paints_latest_ratio label p (vs : list number) (v : number) w :
  let started := start chalk options label p w in
  let h := fst started in
  let w2 := fold_left (fun x u => setPct h u x) (vs ++ [v]) (snd started) in
  getPct h w2 = v
  /\ output w2 = output w ++ [StdoutWrite (paint_text chalk options (frameIdx w) label p)]
  /\ frameIdx w2 = S (frameIdx w)
  /\ output (fire chalk options Math_exp_rational (h_timer h) w2)
     = output w2 ++ [StdoutWrite (paint_text chalk options (S (frameIdx w)) label v)]
  /\ getPct h (fire chalk options Math_exp_rational (h_timer h) w2) = v.
Proof.
  intros started h w2.
  destruct (setPct_many h (vs ++ [v]) (snd started)) as (Ht & Hf & Ho & _ & _ & Hg).
  fold w2 in Ht, Hf, Ho, Hg. rewrite last_snoc in Hg. cbn [default] in Hg.
  assert (Hstart : output (snd started)
                   = output w ++ [StdoutWrite (paint_text chalk options (frameIdx w) label p)]).
  { unfold started. cbn. unfold getPct_cell. cbn. by rewrite lookup_insert_eq. }
  assert (Htimer : timers w2 !! h_timer h
                   = Some {| timer_callback := RenderTick label (h_pct h);
                             timer_delay := renderInterval options |}).
  { rewrite Ht. unfold h, started. cbn. by rewrite lookup_insert_eq. }
  split; [exact Hg |]. split; [by rewrite Ho |]. split; [by rewrite Hf |].
  unfold fire. rewrite Htimer. cbn [timer_callback].
  fold (getPct h w2). rewrite Hg. split; [| done].
  cbn [paint write output set_output set_frameIdx frameIdx]. by rewrite Hf.
Qed.

(** X5. A stopped bar paints no more: once [stop] has been called on the
    handle [start] returned, whatever else happens on the engine, a firing
    of its render timer changes nothing; the handle still stores and
    returns ratios. *)
Theorem stopped_bar_paints_nothing label p (events : list (Event E)) w :
  let started := start chalk options label p w in
  let h := fst started in
  let w2 := exec chalk options Math_exp_rational events (stop h (snd started)) in
  fire chalk options Math_exp_rational (h_timer h) w2 = w2
  /\ forall v, getPct h (setPct h v w2) = v.
Proof.
  intros started h w2. split; [| intros v; apply getPct_setPct].
  apply fire_cleared.
  assert (Hc : cancelled (h_timer h) (stop h (snd started))).
  { split; [cbn; lia | apply stop_cancels]. }
  by destruct (cancelled_exec chalk options Math_exp_rational _ events _ Hc).
Qed.

(** X6. Two bars do not interfere: a handle obtained from a later [start],
    whatever happened on the engine in between, has a ratio variable and a
    render timer of its own; setting the ratio of one leaves the ratio of
    the other as it was, and stopping the first leaves the second timer
    running. *)
Theorem bars_do_not_interfere l1 p1 l2 p2 (events : list (Event E)) w :
  let s1 := start chalk options l1 p1 w in
  let h1 := fst s1 in
  let s2 := start chalk options l2 p2
              (exec chalk options Math_exp_rational events (snd s1)) in
  let h2 := fst s2 in
  let w2 := snd s2 in
  h_pct h1 <> h_pct h2
  /\ h_timer h1 <> h_timer h2
  /\ (forall v, getPct h1 (setPct h2 v w2) = getPct h1 w2)
  /\ (forall v, getPct h2 (setPct h1 v w2) = getPct h2 w2)
  /\ getPct h2 w2 = p2
  /\ timers (stop h1 w2) !! h_timer h2
     = Some {| timer_callback := RenderTick l2 (h_pct h2);
               timer_delay := renderInterval options |}.
Proof.
  intros s1 h1 s2 h2 w2.
  pose proof (next_exec events (snd s1)) as Hn.
  assert (Hn1 : next (snd s1) = S (S (next w))) by reflexivity.
  set (w1 := exec chalk options Math_exp_rational events (snd s1)) in *.
  assert (Hc1 : h_pct h1 = next w) by reflexivity.
  assert (Ht1 : h_timer h1 = S (next w)) by reflexivity.
  assert (Hc2 : h_pct h2 = next w1) by reflexivity.
  assert (Ht2 : h_timer h2 = S (next w1)) by reflexivity.
  assert (Hcell : h_pct h1 <> h_pct h2) by lia.
  assert (Htimer : h_timer h1 <> h_timer h2) by lia.
  split; [exact Hcell |]. split; [exact Htimer |].
  split. { intros v. unfold getPct, setPct, getPct_cell, setPct_cell. cbn [pcts set_pcts].
           by rewrite lookup_insert_ne. }
  split. { intros v. unfold getPct, setPct, getPct_cell, setPct_cell. cbn [pcts set_pcts].
           by rewrite lookup_insert_ne. }
  split. { unfold w2, h2, s2. cbn. unfold getPct, getPct_cell. cbn.
           by rewrite lookup_insert_eq. }
  unfold stop, clearInterval. cbn [timers set_timers].
  rewrite lookup_delete_ne by done.
  unfold w2, h2, s2. cbn. by rewrite lookup_insert_eq.
Qed.

End Handles.

(** ** Output of the child *)

Lemma string_append_nil_r (s : string) : s +:+ EmptyString = s.
Proof.
  induction s as [| c s IH]; [done |].
  change (String c (s +:+ EmptyString) = String c s). by f_equal.
Qed.

Lemma string_append_assoc (a b c : string) : (a +:+ b) +:+ c = a +:+ (b +:+ c).
Proof.
  induction a as [| x a IH]; [done |].
  change (String x ((a +:+ b) +:+ c) = String x (a +:+ (b +:+ c))). by f_equal.
Qed.

Section Chunks.

Context {E : Type}.
Variable chalk : Chalk.
Variable options : Options.
Variable Math_exp_rational : Q -> Q.

Implicit Types (w : World E) (r : Run E) (rid : nat).

Lemma quiet_chunks rid (chunks : list (string * bool)) w :
  quiet w (exec chalk options Math_exp_rational (map (chunk_event rid) chunks) w).
Proof.
  revert w. induction chunks as [| chunk chunks IH]; intros w; [apply quiet_refl |].
  cbn [map exec fold_left]. rewrite step_chunk_event.
  eapply quiet_trans; [apply quiet_on_data | apply IH].
Qed.

Lemma stderr_kept_increment rid0 rid r w :
  runs w !! rid = Some r ->
  exists r', runs (increment rid0 w) !! rid = Some r' /\ run_stderr r' = run_stderr r.
Proof.
  intros Hr. unfold increment. destruct (runs w !! rid0) as [r0 |] eqn:Hr0; [| by exists r].
  assert (H : exists r', (<[rid0 := set_run_completed (S (run_completed r0)) r0]> (runs w))
                           !! rid = Some r' /\ run_stderr r' = run_stderr r).
  { destruct (decide (rid0 = rid)) as [-> | Hne].
    - rewrite lookup_insert_eq. eexists. split; [done |].
      rewrite Hr in Hr0. by inversion Hr0.
    - rewrite lookup_insert_ne by done. by exists r. }
  destruct (run_mode r0) as [| [total |] ? ?]; try exact H.
  destruct (Number.truthy total); exact H.
Qed.

Lemma stderr_kept_run_bar rid0 (render : Handle) (p : BarProg) :
  forall w rid r,
    runs w !! rid = Some r ->
    exists r', runs (run_bar rid0 render p w) !! rid = Some r'
               /\ run_stderr r' = run_stderr r.
Proof.
  induction p as [u | k IH | v k IH | k IH]; intros w rid r Hr; cbn [run_bar].
  - by exists r.
  - destruct (stderr_kept_increment rid0 rid r w Hr) as (r1 & H1 & E1).
    destruct (IH _ _ _ H1) as (r2 & H2 & E2). exists r2. split; [done | congruence].
  - apply IH. exact Hr.
  - apply IH. exact Hr.
Qed.

Lemma runs_apply_parseProgress (render : Handle) parseProgress text w :
  runs (apply_parseProgress render parseProgress text w) = runs w.
Proof.
  unfold apply_parseProgress. destruct parseProgress as [parse |]; [| done].
  by destruct (parse text (user (log (CallParseProgress text) w))) as [u [| | v]].
Qed.

(** One chunk: the text is appended when it came on stderr, in either mode,
    and nothing else about the run changes but [completed]. *)
Lemma stderr_on_data rid r text isStderr w :
  runs w !! rid = Some r -> run_child r = true ->
  exists r', runs (on_data rid text isStderr w) !! rid = Some r'
             /\ run_stderr r'
                = run_stderr r +:+ (if isStderr then text else EmptyString)
             /\ run_steady r r'.
Proof.
  intros Hr Hc.
  assert (Hcollect : exists r1, runs (collect_stderr rid text isStderr w) !! rid = Some r1
                       /\ run_stderr r1
                          = run_stderr r +:+ (if isStderr then text else EmptyString)).
  { destruct isStderr; cbn [collect_stderr].
    - unfold append_stderr. cbn [runs set_runs]. rewrite lookup_alter_eq, Hr. cbn.
      eexists. split; done.
    - exists r. by rewrite string_append_nil_r. }
  assert (Hex : exists r', runs (on_data rid text isStderr w) !! rid = Some r'
                  /\ run_stderr r'
                     = run_stderr r +:+ (if isStderr then text else EmptyString)).
  { unfold on_data. rewrite Hr, Hc.
    destruct (run_mode r) as [pctInterval | total onOutput parseProgress];
      [exact Hcollect |].
    unfold processData. destruct Hcollect as (r1 & H1 & E1).
    set (w1 := collect_stderr rid text isStderr w) in *.
    set (w2 := apply_parseProgress (run_render r) parseProgress text w1).
    assert (H2 : runs w2 !! rid = Some r1)
      by (unfold w2; by rewrite runs_apply_parseProgress).
    unfold apply_onOutput. destruct onOutput as [observe |]; [| by exists r1].
    destruct (stderr_kept_run_bar rid (run_render r)
                (observe text (user (log (CallOnOutput text) w2)))
                (log (CallOnOutput text) w2) rid r1 H2) as (r2 & H3 & E3).
    exists r2. split; [exact H3 | congruence]. }
  destruct Hex as (r' & Hr' & Es). exists r'. split; [done |]. split; [done |].
  destruct (quiet_on_data rid text isStderr w) as (_ & _ & _ & _ & _ & Hruns & _).
  destruct (Hruns _ _ Hr) as (r'' & Hr'' & Hs). rewrite Hr' in Hr''.
  by inversion Hr''; subst.
Qed.

Lemma stderr_chunks rid (chunks : list (string * bool)) :
  forall r w,
    runs w !! rid = Some r -> run_child r = true ->
    exists r', runs (exec chalk options Math_exp_rational
                       (map (chunk_event rid) chunks) w) !! rid = Some r'
               /\ run_stderr r' = run_stderr r +:+ stderr_text chunks
               /\ run_steady r r'.
Proof.
  induction chunks as [| [text isStderr] chunks IH]; intros r w Hr Hc.
  - exists r. cbn. rewrite string_append_nil_r.
    split; [done |]. split; [done | apply run_steady_refl].
  - cbn [map exec fold_left stderr_text]. rewrite step_chunk_event. cbn [fst snd].
    destruct (stderr_on_data rid r text isStderr w Hr Hc) as (r1 & H1 & E1 & S1).
    assert (Hc1 : run_child r1 = true).
    { destruct S1 as (_ & _ & _ & _ & _ & Hch & _). congruence. }
    destruct (IH r1 _ H1 Hc1) as (r2 & H2 & E2 & S2).
    exists r2. split; [exact H2 |].
    split; [by rewrite E2, E1, string_append_assoc | by eapply run_steady_trans].
Qed.

(** X7. What the child writes on stderr accumulates in the order it arrives,
    in both modes, and what it writes on stdout is not kept: after any
    sequence of chunks the accumulated text of the run is the text it had,
    followed by the stderr chunks in order; nothing has been printed
    meanwhile, and if the run now fails, the block printed under the failure
    line is that text, trimmed. *)
Theorem stderr_accumulates_in_order rid r (chunks : list (string * bool)) (code : Z) w :
  runs w !! rid = Some r -> run_child r = true ->
  let w1 := exec chalk options Math_exp_rational (map (chunk_event rid) chunks) w in
  let text := run_stderr r +:+ stderr_text chunks in
  exists r1,
    runs w1 !! rid = Some r1
    /\ run_stderr r1 = text
    /\ run_steady r r1
    /\ output w1 = output w
    /\ (tolerated code r1 (user w1) = false ->
        output (on_close chalk options rid code w1)
        = output w
          ++ StdoutWrite (fail_text chalk options (run_label r))
             :: if string_truthy (trim text)
                then [ConsoleError (red chalk (LF +:+ trim text +:+ LF) +:+ LF)]
                else []).
Proof.
  intros Hr Hc w1 text.
  destruct (stderr_chunks rid chunks r w Hr Hc) as (r1 & H1 & E1 & S1).
  destruct (quiet_chunks rid chunks w) as (_ & Hout & _).
  fold w1 in H1, Hout. exists r1.
  split; [exact H1 |]. split; [exact E1 |]. split; [exact S1 |]. split; [exact Hout |].
  intros Hno.
  assert (Hc1 : run_child r1 = true).
  { destruct S1 as (_ & _ & _ & _ & _ & Hch & _). congruence. }
  destruct (on_close_failed chalk options rid r1 code w1 H1 Hc1 Hno)
    as (_ & _ & Ho & _).
  rewrite Ho, Hout. unfold failure_report. rewrite E1.
  destruct S1 as (Hl & _). by rewrite Hl.
Qed.

Lemma estimated_chunks rid (chunks : list (string * bool)) :
  forall r pctInterval w,
    runs w !! rid = Some r -> run_child r = true ->
    run_mode r = Estimated pctInterval ->
    let w1 := exec chalk options Math_exp_rational (map (chunk_event rid) chunks) w in
    pcts w1 = pcts w /\ user w1 = user w /\ trace w1 = trace w.
Proof.
  induction chunks as [| [text isStderr] chunks IH]; intros r pctInterval w Hr Hc Hm;
    [done |].
  cbn [map exec fold_left]. rewrite step_chunk_event. cbn [fst snd].
  destruct (stderr_on_data rid r text isStderr w Hr Hc) as (r1 & H1 & _ & S1).
  destruct S1 as (_ & _ & Hmode & _ & _ & Hch & _).
  assert (Hc1 : run_child r1 = true) by congruence.
  assert (Hm1 : run_mode r1 = Estimated pctInterval) by congruence.
  destruct (IH r1 pctInterval _ H1 Hc1 Hm1) as (A & B & C).
  cbn zeta. unfold exec in A, B, C. rewrite A, B, C.
  unfold on_data. rewrite Hr, Hc, Hm. by destruct isStderr.
Qed.

(** X8. In estimated mode the output of the child never moves the bar: no
    chunk, on stdout or stderr, changes a ratio, calls a callback of the
    caller, touches the caller's state, paints, or changes a timer. *)
Theorem estimated_run_ignores_output rid r pctInterval (chunks : list (string * bool)) w :
  runs w !! rid = Some r -> run_child r = true ->
  run_mode r = Estimated pctInterval ->
  let w1 := exec chalk options Math_exp_rational (map (chunk_event rid) chunks) w in
  pcts w1 = pcts w /\ user w1 = user w /\ trace w1 = trace w
  /\ output w1 = output w /\ frameIdx w1 = frameIdx w /\ timers w1 = timers w.
Proof.
  intros Hr Hc Hm w1.
  destruct (estimated_chunks rid chunks r pctInterval w Hr Hc Hm) as (A & B & C).
  destruct (quiet_chunks rid chunks w) as (Hf & Ho & Ht & _).
  by repeat split.
Qed.

Lemma pcts_increment rid r (cell : nat) w :
  runs w !! rid = Some r -> cell <> h_pct (run_render r) ->
  pcts (increment rid w) !! cell = pcts w !! cell.
Proof.
  intros Hr Hne. unfold increment. rewrite Hr.
  destruct (run_mode r) as [| [total |] ? ?]; try done.
  destruct (Number.truthy total); [| done].
  unfold setPct, setPct_cell. cbn [pcts set_pcts set_runs].
  by rewrite lookup_insert_ne.
Qed.

Lemma pcts_run_bar rid (p : BarProg) :
  forall r w (cell : nat),
    runs w !! rid = Some r -> cell <> h_pct (run_render r) ->
    pcts (run_bar rid (run_render r) p w) !! cell = pcts w !! cell.
Proof.
  induction p as [u | k IH | v k IH | k IH]; intros r w cell Hr Hne; cbn [run_bar].
  - done.
  - destruct (quiet_increment rid w) as (_ & _ & _ & _ & _ & Hruns & _).
    destruct (Hruns _ _ Hr) as (r' & Hr' & _ & Hrender & _).
    rewrite <- Hrender. rewrite (IH r' _ cell Hr') by congruence.
    by apply pcts_increment with (r := r).
  - rewrite (IH r (setPct (run_render r) v w) cell Hr Hne).
    unfold setPct, setPct_cell. cbn [pcts set_pcts]. by rewrite lookup_insert_ne.
  - by apply IH.
Qed.

Lemma pcts_on_data rid r text isStderr (cell : nat) w :
  runs w !! rid = Some r -> cell <> h_pct (run_render r) ->
  pcts (on_data rid text isStderr w) !! cell = pcts w !! cell.
Proof.
  intros Hr Hne. unfold on_data. rewrite Hr.
  destruct (run_child r); [| done].
  destruct (run_mode r) as [pctInterval | total onOutput parseProgress];
    [by destruct isStderr |].
  unfold processData.
  set (w1 := collect_stderr rid text isStderr w).
  destruct (user_collect_stderr rid text isStderr w) as (_ & Hp1 & _). fold w1 in Hp1.
  destruct (quiet_collect_stderr rid text isStderr w) as (_ & _ & _ & _ & _ & Hruns & _).
  destruct (Hruns _ _ Hr) as (r1 & Hr1 & _ & Hrender & _). fold w1 in Hr1.
  set (w2 := apply_parseProgress (run_render r) parseProgress text w1).
  assert (Hp2 : pcts w2 !! cell = pcts w !! cell).
  { rewrite <- Hp1. unfold w2, apply_parseProgress.
    destruct parseProgress as [parse |]; [| done].
    destruct (parse text (user (log (CallParseProgress text) w1))) as [u [| | v]];
      try done.
    unfold setPct, setPct_cell. cbn [pcts set_pcts set_user log set_trace].
    by rewrite lookup_insert_ne. }
  assert (Hr2 : runs w2 !! rid = Some r1)
    by (unfold w2; by rewrite runs_apply_parseProgress).
  unfold apply_onOutput. destruct onOutput as [observe |]; [| exact Hp2].
  rewrite <- Hrender.
  rewrite (pcts_run_bar rid _ r1 (log (CallOnOutput text) w2) cell Hr2) by congruence.
  exact Hp2.
Qed.

(** X9. The output of a run moves no bar but its own: whatever the parser
    returns and whatever the observer does with the [bar] it is given, the
    ratio of every other handle is after any sequence of chunks what it was
    before. *)
Theorem chunks_move_only_their_bar rid r (chunks : list (string * bool)) w :
  runs w !! rid = Some r ->
  forall h : Handle,
    h_pct h <> h_pct (run_render r) ->
    getPct h (exec chalk options Math_exp_rational (map (chunk_event rid) chunks) w)
    = getPct h w.
Proof.
  intros Hr h Hne. unfold getPct, getPct_cell. f_equal.
  revert r w Hr Hne. induction chunks as [| [text isStderr] chunks IH]; intros r w Hr Hne;
    [done |].
  cbn [map exec fold_left]. rewrite step_chunk_event. cbn [fst snd].
  destruct (quiet_on_data rid text isStderr w) as (_ & _ & _ & _ & _ & Hruns & _).
  destruct (Hruns _ _ Hr) as (r1 & Hr1 & _ & Hrender & _).
  unfold exec in IH. rewrite (IH r1 _ Hr1) by congruence.
  by apply pcts_on_data with (r := r).
Qed.

(** ** Counting steps *)

Lemma increment_iter_falsy rid r total onOutput parseProgress w (k : nat) :
  runs w !! rid = Some r ->
  run_mode r = Tracked total onOutput parseProgress ->
  (forall t, total = Some t -> Number.truthy t = false) ->
  pcts (Nat.iter k (increment rid) w) = pcts w.
Proof.
  intros Hr Hm Hf. induction k as [| k IH]; [done |].
  simpl Nat.iter. pose proof (increment_iter rid r w k Hr) as Hk.
  unfold increment at 1. rewrite Hk. cbn [run_mode set_run_completed]. rewrite Hm.
  destruct total as [t |]; [rewrite (Hf t eq_refl) |]; exact IH.
Qed.

(** X10. [bar.increment()] moves the bar only when [total] is truthy: with
    [total] absent, 0 or NaN, any number of increments counts the steps and
    leaves every ratio as it was. *)
Theorem increment_needs_truthy_total rid r total onOutput parseProgress w :
  runs w !! rid = Some r ->
  run_mode r = Tracked total onOutput parseProgress ->
  total = None \/ total = Some NaN \/ (exists q, (q == 0)%Q /\ total = Some (Num q)) ->
  forall k : nat,
    pcts (Nat.iter k (increment rid) w) = pcts w
    /\ run_completed <$> runs (Nat.iter k (increment rid) w) !! rid
       = Some (k + run_completed r)%nat.
Proof.
  intros Hr Hm Hfalsy k. split; [| by rewrite (increment_iter _ _ _ k Hr)].
  apply increment_iter_falsy with (r := r) (total := total)
                                  (onOutput := onOutput) (parseProgress := parseProgress);
    [done | done |].
  intros t Ht. destruct Hfalsy as [-> | [-> | (q & Hq & ->)]]; [done | | ].
  - by inversion Ht.
  - inversion Ht; subst. cbn. apply Qeq_bool_iff in Hq. by rewrite Hq.
Qed.

(** X11. With [total] set to an integer [n] above zero, the [k]-th increment
    stores the count over [n]; once the count reaches [n] the bar is drawn
    full, the line painted when the count equals [n] is the line of 100%,
    and further increments keep the bar full. *)
Theorem increments_fill_the_bar rid r (n : Z) onOutput parseProgress w (k : nat) :
  runs w !! rid = Some r ->
  run_mode r = Tracked (Some (Number.of_Z n)) onOutput parseProgress ->
  (0 < n)%Z -> (0 < k)%nat ->
  let count := Z.of_nat (k + run_completed r) in
  let ratio := Num (inject_Z count / inject_Z n) in
  getPct (run_render r) (Nat.iter k (increment rid) w) = ratio
  /\ ((n <= count)%Z ->
      renderBar chalk options ratio
      = cyan chalk (repeat_string (filledChar options) (barWidth options))
        +:+ dim chalk EmptyString)
  /\ (count = n ->
      forall idx label,
        paint_text chalk options idx label ratio
        = paint_text chalk options idx label (Num 1)).
Proof.
  intros Hr Hm Hn Hk count ratio.
  assert (Hn0 : Qeq_bool (inject_Z n) 0 = false) by (by apply Qeq_bool_inject_Z_pos).
  assert (HnQ : (0 < inject_Z n)%Q).
  { change 0%Q with (inject_Z 0). by rewrite <- Zlt_Qlt. }
  split; [| split].
  - destruct k as [| k]; [lia |]. simpl Nat.iter.
    pose proof (increment_iter rid r w k Hr) as Hk'.
    unfold increment at 1. rewrite Hk'. cbn [run_mode set_run_completed run_completed run_render].
    rewrite Hm. unfold Number.truthy, Number.of_Z at 1. rewrite Hn0. cbn [negb].
    rewrite getPct_setPct. unfold Number.div, Number.of_nat, Number.of_Z.
    rewrite Hn0. reflexivity.
  - intros Hle. apply renderBar_full. apply Qle_shift_div_l; [exact HnQ |].
    rewrite Qmult_1_l. by rewrite <- Zle_Qle.
  - intros Heq idx label. apply paint_text_eqv. unfold ratio. cbn [Number.eqv].
    rewrite Heq. field. intros H0. rewrite H0 in HnQ. by apply Qlt_irrefl in HnQ.
Qed.

End Chunks.

(** ** The life of a run *)

Section Lifecycle.

Context {E : Type}.
Variable chalk : Chalk.
Variable options : Options.
Variable Math_exp_rational : Q -> Q.

Implicit Types (w : World E) (r : Run E) (rid id : nat).

(** X12. A run leaves no timer of its own behind: once its child has
    closed, with whatever exit code, the render timer of the run, and in
    estimated mode its sampler, are cleared and stay so; whatever happens
    later on the engine, a firing of either changes nothing. *)
Theorem closed_run_timers_stay_cleared rid r (code : Z) (events : list (Event E)) w :
  runs w !! rid = Some r -> run_child r = true ->
  (h_timer (run_render r) < next w)%nat ->
  (forall pctInterval, run_mode r = Estimated pctInterval -> (pctInterval < next w)%nat) ->
  let w' := exec chalk options Math_exp_rational events
              (on_close chalk options rid code w) in
  fire chalk options Math_exp_rational (h_timer (run_render r)) w' = w'
  /\ (forall pctInterval, run_mode r = Estimated pctInterval ->
        fire chalk options Math_exp_rational pctInterval w' = w').
Proof.
  intros Hr Hc Hlt Hsampler w'.
  assert (Hexit : forall id, (id < next w)%nat -> timers_at_exit r w !! id = None ->
                    cancelled id (on_close chalk options rid code w)).
  { intros id Hid Hnone. destruct (tolerated code r (user w)) eqn:Hok.
    - destruct (on_close_ok chalk options rid r code w Hr Hc Hok)
        as (Ht & _ & _ & _ & _ & Hn & _).
      split; [lia |]. by rewrite Ht, lookup_insert_ne by lia.
    - destruct (on_close_failed chalk options rid r code w Hr Hc Hok)
        as (Ht & _ & _ & _ & _ & Hn & _).
      split; [lia |]. by rewrite Ht. }
  split.
  - apply fire_cleared.
    assert (Hcl : cancelled (h_timer (run_render r)) (on_close chalk options rid code w)).
    { apply Hexit; [exact Hlt |]. unfold timers_at_exit. apply lookup_delete_eq. }
    by destruct (cancelled_exec chalk options Math_exp_rational _ events _ Hcl).
  - intros pctInterval Hm. apply fire_cleared.
    assert (Hcl : cancelled pctInterval (on_close chalk options rid code w)).
    { apply Hexit; [by apply Hsampler |]. unfold timers_at_exit. rewrite Hm.
      apply lookup_delete_None. right. apply lookup_delete_eq. }
    by destruct (cancelled_exec chalk options Math_exp_rational _ events _ Hcl).
Qed.

Lemma runEstimated_now (o : EstimatedOptions) w :
  now (snd (runEstimated chalk options o w)) = now w.
Proof. reflexivity. Qed.

Lemma runEstimated_starts_at_zero (o : EstimatedOptions) w :
  getPct_cell (next w) (snd (runEstimated chalk options o w)) = Number.of_Z 0.
Proof. unfold getPct_cell. cbn. by rewrite lookup_insert_eq. Qed.

(** A sample against an [adjustedMs] of zero: the quotient is an infinity
    with the sign of the time elapsed, or NaN when none has. *)
Lemma sample_tick_zero (cell : nat) (startTime : Z) (a : Q) w :
  (a == 0)%Q ->
  getPct_cell cell (sample_tick Math_exp_rational cell startTime (Num a) w)
  = Number.mul (Num (9 # 10))
      (Number.sub (Number.of_Z 1)
         (Math_exp Math_exp_rational
            (Number.mul (Num (- (5 # 2)))
               (Number.signed_inf (Number.sign (inject_Z (now w - startTime))))))).
Proof.
  intros Ha. apply Qeq_bool_iff in Ha.
  unfold getPct_cell, sample_tick, setPct_cell. cbn [pcts set_pcts].
  rewrite lookup_insert_eq. cbn [default].
  unfold Number.div, Number.of_Z at 2. by rewrite Ha.
Qed.


Lemma sampler_zero_estimate (q : Q) (cell sampler : nat) (startTime t : Z) w1 :
  (q == 0)%Q ->
  timers w1 !! sampler
  = Some {| timer_callback :=
              SampleTick cell startTime
                (Number.mul (Num q)
                   (Number.add (Number.of_Z 1) (Num (estimateBuffer options))));
            timer_delay := 200 |} ->
  now w1 = startTime ->
  getPct_cell cell
    (fire chalk options Math_exp_rational sampler
       (step chalk options Math_exp_rational (Elapse t) w1))
  = Number.mul (Num (9 # 10))
      (Number.sub (Number.of_Z 1)
         (Math_exp Math_exp_rational
            (Number.mul (Num (- (5 # 2)))
               (Number.signed_inf (Number.sign (inject_Z t)))))).
Proof.
  intros Hq Ht Hnow.
  assert (Hzero : (q * (inject_Z 1 + estimateBuffer options) == 0)%Q).
  { rewrite Hq. ring. }
  cbn [step]. unfold fire. cbn [timers set_now]. rewrite Ht. cbn [timer_callback].
  unfold Number.mul at 1, Number.add, Number.of_Z at 1.
  rewrite (sample_tick_zero _ _ _ _ Hzero). cbn [now set_now]. rewrite Hnow.
  by replace (startTime + t - startTime)%Z with t by lia.
Qed.

Lemma paint_text_NaN (idx : nat) label :
  paint_text chalk options idx label NaN
  = CR_ERASE_LINE +:+ pad options +:+ cyan chalk (spinner_frame options idx)
    +:+ " " +:+ label +:+ "  "
    +:+ (cyan chalk EmptyString +:+ dim chalk EmptyString)
    +:+ "  " +:+ dim chalk "NaN%".
Proof. reflexivity. Qed.

(** X13. With an estimate of zero the easing curve degenerates: the first
    sample taken after time has passed on the clock stores 0.9 at once, and
    a sample taken with no time elapsed stores NaN, which [paint] shows as a
    bar without segments next to [NaN%]. *)
Theorem zero_estimate_jumps_to_ninety (o : EstimatedOptions) (q : Q) (ms : Z) w :
  e_estimatedMs o = Num q -> (q == 0)%Q -> (0 < ms)%Z ->
  let w1 := snd (runEstimated chalk options o w) in
  let render := {| h_pct := next w; h_timer := S (next w) |} in
  let sampler := S (S (next w)) in
  let sampled (t : Z) :=
    getPct render
      (fire chalk options Math_exp_rational sampler
         (step chalk options Math_exp_rational (Elapse t) w1)) in
  getPct render w1 = Number.of_Z 0
  /\ Number.eqv (sampled ms) (Num (9 # 10))
  /\ sampled 0%Z = NaN
  /\ forall idx label,
       paint_text chalk options idx label NaN
       = CR_ERASE_LINE +:+ pad options +:+ cyan chalk (spinner_frame options idx)
         +:+ " " +:+ label +:+ "  "
         +:+ (cyan chalk EmptyString +:+ dim chalk EmptyString)
         +:+ "  " +:+ dim chalk "NaN%".
Proof.
  intros Hest Hq Hms w1 render sampler sampled.
  assert (Hsample : forall t,
            sampled t
            = Number.mul (Num (9 # 10))
                (Number.sub (Number.of_Z 1)
                   (Math_exp Math_exp_rational
                      (Number.mul (Num (- (5 # 2)))
                         (Number.signed_inf (Number.sign (inject_Z t))))))).
  { intros t.
    pose proof (runEstimated_sampler chalk options o w) as Ht. rewrite Hest in Ht.
    exact (sampler_zero_estimate q (next w) (S (S (next w))) (now w) t
             (snd (runEstimated chalk options o w)) Hq Ht (runEstimated_now o w)). }
  split; [exact (runEstimated_starts_at_zero o w) |].
  split.
  { rewrite Hsample.
    assert (Hs : Number.sign (inject_Z ms) = Gt).
    { unfold Number.sign. apply Qgt_alt. change 0%Q with (inject_Z 0).
      by rewrite <- Zlt_Qlt. }
    rewrite Hs. vm_compute. reflexivity. }
  split; [by rewrite Hsample |].
  exact paint_text_NaN.
Qed.

Lemma output_fire id w :
  let w' := fire chalk options Math_exp_rational id w in
  exists out, output w' = output w ++ out /\ (length out <= 2)%nat
              /\ (frameIdx w <= frameIdx w' <= S (frameIdx w))%nat.
Proof.
  cbn zeta. unfold fire. destruct (timers w !! id) as [[cb delay] |];
    [| exists []; rewrite app_nil_r; cbn; split; [done | lia]].
  destruct cb as [label cell | cell startTime adjustedMs | label c final f waiter];
    cbn [timer_callback timer_delay].
  - eexists [_]. split; [reflexivity | cbn; lia].
  - exists []. rewrite app_nil_r. cbn. split; [done | lia].
  - unfold snap_tick. destruct (totalFrames <=? S f)%nat; [destruct waiter |].
    + eexists [_; _]. world_simpl. rewrite <- app_assoc. split; [reflexivity | cbn; lia].
    + eexists [_; _]. world_simpl. rewrite <- app_assoc. split; [reflexivity | cbn; lia].
    + eexists [_]. world_simpl. split; [reflexivity | cbn; lia].
Qed.

Lemma output_on_close rid code w :
  let w' := on_close chalk options rid code w in
  exists out, output w' = output w ++ out /\ (length out <= 2)%nat
              /\ (frameIdx w <= frameIdx w' <= S (frameIdx w))%nat.
Proof.
  cbn zeta.
  destruct (runs w !! rid) as [r |] eqn:Hr;
    [| unfold on_close; rewrite Hr; exists []; rewrite app_nil_r; cbn; split; [done | lia]].
  destruct (run_child r) eqn:Hchild;
    [| unfold on_close; rewrite Hr, Hchild; exists []; rewrite app_nil_r; cbn;
       split; [done | lia]].
  destruct (tolerated code r (user w)) eqn:Hok.
  - destruct (on_close_ok chalk options rid r code w Hr Hchild Hok) as (_ & Hf & Ho & _).
    exists []. rewrite app_nil_r, Ho, Hf. cbn. split; [done | lia].
  - destruct (on_close_failed chalk options rid r code w Hr Hchild Hok)
      as (_ & Hf & Ho & _).
    exists (failure_report chalk options r). rewrite Ho, Hf. split; [done |].
    unfold failure_report. destruct (string_truthy (trim (run_stderr r))); cbn; lia.
Qed.

Lemma output_step (e : Event E) w :
  let w' := step chalk options Math_exp_rational e w in
  exists out, output w' = output w ++ out /\ (length out <= 2)%nat
              /\ (frameIdx w <= frameIdx w' <= S (frameIdx w))%nat.
Proof.
  cbn zeta.
  destruct e as [label pct | label | label | label | label | label initialPct
                | h v | h | label currentPct finalLabel | o | o
                | id' | rid text | rid text | rid code | ms | f]; cbn [step].
  - eexists [_]. split; [reflexivity | cbn; lia].
  - eexists [_]. split; [reflexivity | cbn; lia].
  - eexists [_]. split; [reflexivity | cbn; lia].
  - eexists [_]. split; [reflexivity | cbn; lia].
  - eexists [_]. split; [reflexivity | cbn; lia].
  - eexists [_]. split; [reflexivity | cbn; lia].
  - exists []. rewrite app_nil_r. cbn. split; [done | lia].
  - exists []. rewrite app_nil_r. cbn. split; [done | lia].
  - exists []. rewrite app_nil_r. cbn. split; [done | lia].
  - eexists [_]. split; [reflexivity | cbn; lia].
  - eexists [_]. split; [reflexivity | cbn; lia].
  - apply output_fire.
  - destruct (quiet_on_data rid text false w) as (Hf & Ho & _).
    exists []. rewrite app_nil_r, Ho, Hf. cbn. split; [done | lia].
  - destruct (quiet_on_data rid text true w) as (Hf & Ho & _).
    exists []. rewrite app_nil_r, Ho, Hf. cbn. split; [done | lia].
  - apply output_on_close.
  - exists []. rewrite app_nil_r. cbn. split; [done | lia].
  - exists []. rewrite app_nil_r. cbn. split; [done | lia].
Qed.

(** X14. The terminal is written to by appending only, at most two writes
    per event (a frame and a final line, or a failure line and the stderr
    block), and the spinner index never goes back: every event leaves it as
    it is or advances it by one. *)
Theorem terminal_is_append_only (events : list (Event E)) w :
  let w' := exec chalk options Math_exp_rational events w in
  exists out,
    output w' = output w ++ out
    /\ (length out <= 2 * length events)%nat
    /\ (frameIdx w <= frameIdx w' <= frameIdx w + length events)%nat.
Proof.
  cbn zeta. revert w. induction events as [| e events IH]; intros w.
  - exists []. rewrite app_nil_r. cbn. split; [done | lia].
  - cbn [exec fold_left].
    destruct (output_step e w) as (out1 & Ho1 & Hl1 & Hf1). cbn zeta in Ho1, Hf1.
    destruct (IH (step chalk options Math_exp_rational e w)) as (out2 & Ho2 & Hl2 & Hf2).
    unfold exec in Ho2, Hf2. exists (out1 ++ out2).
    rewrite Ho2, Ho1, <- app_assoc, length_app. cbn [length]. split; [done | lia].
Qed.

(** X15. A standalone [snapTo100]: the call itself paints nothing; each of
    the next eight firings of its interval, 30 ms apart, paints one frame;
    the eighth then clears the interval and prints the success line, under
    [finalLabel] if that is a non-empty string and under [label] otherwise.
    No ratio and no run is touched, and later firings do nothing. *)
Theorem snapTo100_paints_then_succeeds label (c : number) (final : option string) w :
  let started := snapTo100 label c final None w in
  let id := fst started in
  let after (k : nat) :=
    Nat.iter k (fire chalk options Math_exp_rational id) (snd started) in
  id = next w
  /\ output (after 0%nat) = output w
  /\ timers (after 0%nat) !! id
     = Some {| timer_callback := SnapTick label c final 0 None; timer_delay := 30 |}
  /\ (forall k : nat, (k < totalFrames)%nat ->
        output (after k)
        = output w ++ paint_lines chalk options (frameIdx w) (snap_frames label c k))
  /\ output (after totalFrames)
     = output w ++ paint_lines chalk options (frameIdx w) (snap_frames label c totalFrames)
       ++ [StdoutWrite (succeed_text chalk options (or_label final label))]
  /\ frameIdx (after totalFrames) = (frameIdx w + totalFrames)%nat
  /\ timers (after totalFrames) = delete id (timers w)
  /\ pcts (after totalFrames) = pcts w
  /\ runs (after totalFrames) = runs w
  /\ (forall k : nat, (totalFrames <= k)%nat -> after k = after totalFrames).
Proof.
  intros started id after.
  set (w0 := snd started).
  assert (Hstart : snapping chalk options id snapInterval label c final None 0 w0 w0).
  { unfold snapping, snap_frames. cbn [seq map paint_lines].
    rewrite app_nil_r, Nat.add_0_r. split; [| by repeat split].
    symmetry. apply insert_id. unfold w0, started, id. cbn. apply lookup_insert_eq. }
  assert (H7 : (totalFrames - 1 < totalFrames)%nat) by (unfold totalFrames; lia).
  pose proof (snapping_iter chalk options Math_exp_rational _ _ _ _ _ _ _ _ _ Hstart H7)
    as Hs.
  destruct (snapping_last chalk options Math_exp_rational _ _ _ _ _ _ _ _ Hs)
    as (Ht & Hf & Ho & Hp & Hr & _).
  assert (Hlast : after totalFrames
                  = fire chalk options Math_exp_rational id
                      (Nat.iter (totalFrames - 1)
                         (fire chalk options Math_exp_rational id) w0)).
  { unfold after. exact (Nat.iter_succ (totalFrames - 1) _ _). }
  rewrite <- Hlast in Ht, Hf, Ho, Hp, Hr.
  assert (Htimers : timers (after totalFrames) = delete id (timers w)).
  { rewrite Ht. unfold w0, started, id. cbn. by rewrite delete_insert_eq. }
  split; [reflexivity |]. split; [reflexivity |].
  split. { unfold after, started, id. cbn. apply lookup_insert_eq. }
  split.
  { intros k Hk.
    by destruct (snapping_iter chalk options Math_exp_rational _ _ _ _ _ _ _ _ k Hstart Hk)
      as (_ & _ & Hok & _). }
  split; [exact Ho |]. split; [exact Hf |]. split; [exact Htimers |].
  split; [exact Hp |]. split; [exact Hr |].
  intros k Hk. replace k with ((k - totalFrames) + totalFrames)%nat by lia.
  unfold after at 1. rewrite Nat.iter_add. fold (after totalFrames).
  apply fire_cleared_iter. rewrite Htimers. apply lookup_delete_eq.
Qed.

Lemma runTracked_world (o : TrackedOptions) w :
  let rid := fst (runTracked chalk options o w) in
  let w1 := snd (runTracked chalk options o w) in
  runs w1 !! rid
  = Some {| run_label := t_label o;
            run_render := {| h_pct := next w; h_timer := S (next w) |};
            run_mode := Tracked (t_total o) (t_onOutput o) (t_parseProgress o);
            run_completed := 0; run_stderr := EmptyString;
            run_doneLabel := t_doneLabel o;
            run_tolerateFailure := t_tolerateFailure o;
            run_child := true; run_promise := Pending |}
  /\ output w1
     = output w ++ [StdoutWrite (paint_text chalk options (frameIdx w) (t_label o)
                                   (Number.of_Z 0))]
  /\ frameIdx w1 = S (frameIdx w)
  /\ timers w1 = <[S (next w) := {| timer_callback := RenderTick (t_label o) (next w);
                                    timer_delay := renderInterval options |}]> (timers w)
  /\ next w1 = S (S (S (next w)))
  /\ user w1 = user w
  /\ getPct_cell (next w) w1 = Number.of_Z 0.
Proof.
  cbn. unfold getPct_cell. cbn. rewrite !lookup_insert_eq. by repeat split.
Qed.

(** A live run driven by the parser alone, through its chunks, a clean
    exit and the eight frames of the snap. *)
Lemma parsed_run_succeeds rid r total parse (chunks : list (string * bool)) w :
  runs w !! rid = Some r -> run_child r = true ->
  run_mode r = Tracked total None (Some parse) ->
  let w2 := exec chalk options Math_exp_rational (map (chunk_event rid) chunks) w in
  let c := last_parsed parse (user w) chunks (getPct (run_render r) w) in
  let final := fst (resolve_doneLabel (run_doneLabel r) w2) in
  let w3 := Nat.iter totalFrames (fire chalk options Math_exp_rational (next w2))
              (on_close chalk options rid 0 w2) in
  next w2 = next w
  /\ output w3
     = output w
       ++ paint_lines chalk options (frameIdx w) (snap_frames (run_label r) c totalFrames)
       ++ [StdoutWrite (succeed_text chalk options (or_label final (run_label r)))]
  /\ run_promise <$> runs w3 !! rid = Some Fulfilled
  /\ timers w3 = delete (next w) (delete (h_timer (run_render r)) (timers w)).
Proof.
  intros Hr Hchild Hm w2 c final w3.
  pose proof (parser_only_chunks chalk options Math_exp_rational rid parse chunks
                r total w Hr Hchild Hm) as Hc.
  fold w2 in Hc. fold c in Hc.
  destruct (stderr_chunks chalk options Math_exp_rational rid chunks r w Hr Hchild)
    as (r2 & Hr2 & _ & Hl & Hrender & Hmode & Hdone & _ & Hchild2 & _).
  fold w2 in Hr2.
  destruct (quiet_chunks chalk options Math_exp_rational rid chunks w)
    as (Hf2 & Ho2 & Ht2 & Hn2 & _).
  fold w2 in Hf2, Ho2, Ht2, Hn2.
  assert (Hc2 : run_child r2 = true) by congruence.
  assert (Hok : tolerated 0 r2 (user w2) = true) by reflexivity.
  destruct (snap_output_done chalk options Math_exp_rational rid r2 0 w2 Hr2 Hc2 Hok)
    as (Hout & Hruns & Htimers).
  fold w3 in Hout, Hruns, Htimers.
  assert (Hfinal : done_label 0 r2 (user w2) = final).
  { destruct (resolve_doneLabel_spec r2 w2) as (Hres & _). cbn zeta in Hres.
    rewrite Hdone in Hres. unfold final. rewrite Hres. unfold done_label.
    by rewrite Hdone. }
  split; [exact Hn2 |]. split; [| split].
  - by rewrite Hout, Hfinal, Hl, Hrender, Hc, Ho2, Hf2.
  - by rewrite Hruns, lookup_insert_eq.
  - rewrite Htimers. unfold timers_at_exit. by rewrite Hmode, Hm, Hrender, Ht2, Hn2.
Qed.

(** X16. A tracked run driven by [parseProgress] alone, from the call to
    the settled promise: [runTracked] paints the first frame at 0%; the
    chunks paint nothing; when the child exits with code 0 the snap starts
    from the most recent number the parser returned (0 if there was none),
    paints eight frames and prints the success line; the promise is then
    fulfilled and every timer the run created is gone. *)
Theorem parsed_run_from_launch_to_success (o : TrackedOptions) parse
        (chunks : list (string * bool)) w :
  well_formed w ->
  t_parseProgress o = Some parse -> t_onOutput o = None ->
  let launched := runTracked chalk options o w in
  let rid := fst launched in
  let w2 := exec chalk options Math_exp_rational (map (chunk_event rid) chunks)
              (snd launched) in
  let c := last_parsed parse (user w) chunks (Number.of_Z 0) in
  let final := fst (resolve_doneLabel (t_doneLabel o) w2) in
  let w3 := Nat.iter totalFrames (fire chalk options Math_exp_rational (next w2))
              (on_close chalk options rid 0 w2) in
  output w3
  = output w
    ++ StdoutWrite (paint_text chalk options (frameIdx w) (t_label o) (Number.of_Z 0))
       :: paint_lines chalk options (S (frameIdx w)) (snap_frames (t_label o) c totalFrames)
    ++ [StdoutWrite (succeed_text chalk options (or_label final (t_label o)))]
  /\ run_promise <$> runs w3 !! rid = Some Fulfilled
  /\ timers w3 = timers w.
Proof.
  intros [Hfree _] Hparse Hobserve launched rid w2 c final w3.
  destruct (runTracked_world o w) as (Hr & Ho & Hf & Ht & Hn & Hu & Hp).
  cbn zeta in Hr, Ho, Hf, Ht, Hn, Hu, Hp.
  rewrite Hparse, Hobserve in Hr.
  destruct (parsed_run_succeeds _ _ (t_total o) parse chunks _ Hr eq_refl eq_refl)
    as (Hn2 & Hout & Hprom & Htimers).
  cbn zeta in Hn2, Hout, Hprom, Htimers.
  cbn [run_label run_render run_doneLabel h_timer] in Hout, Htimers.
  unfold getPct in Hout. cbn [h_pct] in Hout.
  rewrite Hp, Hu, Ho, Hf, <- app_assoc in Hout. rewrite Ht, Hn in Htimers.
  subst launched rid w2 c final w3.
  split; [exact Hout |]. split; [exact Hprom |].
  rewrite Htimers, delete_insert_eq.
  rewrite (delete_id (timers w) (S (next w))) by (apply Hfree; lia).
  apply delete_id. apply Hfree. lia.
Qed.

End Lifecycle.

(** ** Promises *)

Ltac world_simpl_in H :=
  cbn [frameIdx now user output pcts timers runs next trace
       set_frameIdx set_now set_user set_output set_pcts set_timers set_runs
       set_next set_trace write console_error log paint setInterval clearInterval
       succeed fail info warn settle setPct_cell setPct stop fst snd] in H.

Section Promises.

Context {E : Type}.
Variable chalk : Chalk.
Variable options : Options.
Variable Math_exp_rational : Q -> Q.

Implicit Types (w : World E) (r : Run E) (rid id : nat).

(** Steps that create timers no run awaits, and runs that are alive and
    pending. *)
Lemma orderly_grow w w' :
  orderly w -> (next w <= next w')%nat ->
  (forall id t, timers w' !! id = Some t ->
     timers w !! id = Some t
     \/ forall label c final f rid,
          timer_callback t <> SnapTick label c final f (Some rid)) ->
  (forall rid r, runs w' !! rid = Some r ->
     runs w !! rid = Some r
     \/ ((rid < next w')%nat /\ run_child r = true /\ run_promise r = Pending)) ->
  (forall rid r, runs w !! rid = Some r -> runs w' !! rid = Some r) ->
  orderly w'.
Proof.
  intros (H1 & H2 & H3) Hn Ht Hr Hp. split; [| split].
  - intros rid r Hr' Hc. destruct (Hr _ _ Hr') as [Hold | (_ & _ & Hpend)];
      [by eapply H1 | done].
  - intros id t label c final f rid Hid Hcb. destruct (Ht _ _ Hid) as [Hold | Hnew].
    + destruct (H2 _ _ _ _ _ _ _ Hold Hcb) as (r & Hrr & Hcf).
      exists r. split; [by apply Hp | done].
    + by destruct (Hnew label c final f rid).
  - intros rid r Hr'. destruct (Hr _ _ Hr') as [Hold | (Hlt & _)]; [| done].
    specialize (H3 _ _ Hold). lia.
Qed.

(** Steps that change runs in place. *)
Lemma orderly_update w w' :
  orderly w -> (next w <= next w')%nat ->
  (forall id t label c final f rid,
     timers w' !! id = Some t ->
     timer_callback t = SnapTick label c final f (Some rid) ->
     (exists id0 t0 label0 c0 final0 f0,
        timers w !! id0 = Some t0
        /\ timer_callback t0 = SnapTick label0 c0 final0 f0 (Some rid))
     \/ exists r', runs w' !! rid = Some r' /\ run_child r' = false) ->
  (forall rid r, runs w !! rid = Some r -> run_child r = false ->
     exists r', runs w' !! rid = Some r' /\ run_child r' = false) ->
  (forall rid r', runs w' !! rid = Some r' ->
     exists r, runs w !! rid = Some r
               /\ (run_child r' = true ->
                   run_child r = true /\ run_promise r' = run_promise r)) ->
  orderly w'.
Proof.
  intros (H1 & H2 & H3) Hn Ht Hf Hr. split; [| split].
  - intros rid r' Hr' Hc. destruct (Hr _ _ Hr') as (r & Hrr & Hsame).
    destruct (Hsame Hc) as [Hc0 ->]. by eapply H1.
  - intros id t label c final f rid Hid Hcb.
    destruct (Ht _ _ _ _ _ _ _ Hid Hcb)
      as [(id0 & t0 & l0 & c0 & fl0 & f0 & Hid0 & Hcb0) | Hclosed]; [| done].
    destruct (H2 _ _ _ _ _ _ _ Hid0 Hcb0) as (r & Hrr & Hcf). by eapply Hf.
  - intros rid r' Hr'. destruct (Hr _ _ Hr') as (r & Hrr & _).
    specialize (H3 _ _ Hrr). lia.
Qed.

Lemma orderly_same w w' :
  runs w' = runs w -> timers w' = timers w -> next w' = next w ->
  orderly w -> orderly w'.
Proof.
  intros Hr Ht Hn Hord. apply (orderly_grow w); [done | lia | | |].
  - intros id t H. left. by rewrite <- Ht.
  - intros rid r H. left. by rewrite <- Hr.
  - intros rid r H. by rewrite Hr.
Qed.

Lemma orderly_createProgress (t0 : Z) (u : E) : orderly (createProgress t0 u).
Proof.
  split; [| split]; cbn.
  - intros rid r H. by rewrite lookup_empty in H.
  - intros id t label c final f rid H. by rewrite lookup_empty in H.
  - intros rid r H. by rewrite lookup_empty in H.
Qed.

Lemma timers_at_exit_Some r w id (t : Timer) :
  timers_at_exit r w !! id = Some t -> timers w !! id = Some t.
Proof.
  unfold timers_at_exit. intros H. apply lookup_delete_Some in H as [_ H].
  destruct (run_mode r); [by apply lookup_delete_Some in H as [_ H] | done].
Qed.

Lemma orderly_fire id w :
  orderly w -> orderly (fire chalk options Math_exp_rational id w).
Proof.
  intros Hord. unfold fire. destruct (timers w !! id) as [[cb delay] |] eqn:Hid; [| done].
  destruct cb as [label cell | cell startTime adjustedMs | label c final f waiter];
    cbn [timer_callback timer_delay].
  - exact (orderly_same w _ eq_refl eq_refl eq_refl Hord).
  - exact (orderly_same w _ eq_refl eq_refl eq_refl Hord).
  - assert (Hold : forall id' t label' c' final' f' rid,
              (<[id := {| timer_callback := SnapTick label c final (S f) waiter;
                          timer_delay := delay |}]> (timers w)) !! id' = Some t ->
              timer_callback t = SnapTick label' c' final' f' (Some rid) ->
              exists id0 t0 label0 c0 final0 f0,
                timers w !! id0 = Some t0
                /\ timer_callback t0 = SnapTick label0 c0 final0 f0 (Some rid)).
    { intros id' t label' c' final' f' rid H Hcb.
      apply lookup_insert_Some in H as [[<- <-] | [_ H]].
      - cbn in Hcb. inversion Hcb; subst.
        exists id, {| timer_callback := SnapTick label' c' final' f (Some rid);
                      timer_delay := delay |}, label', c', final', f. by split.
      - exists id', t, label', c', final', f'. by split. }
    unfold snap_tick.
    destruct (totalFrames <=? S f)%nat; [destruct waiter as [rid0 |] |].
    + apply (orderly_update w); [done | cbn; lia | | |].
      * intros id' t label' c' final' f' rid H Hcb. left. world_simpl_in H.
        apply lookup_delete_Some in H as [_ H]. by eapply Hold.
      * intros rid r Hr Hc. world_simpl.
        destruct (decide (rid0 = rid)) as [-> | Hne].
        -- rewrite lookup_alter_eq, Hr. cbn. eexists. split; [done | exact Hc].
        -- rewrite lookup_alter_ne by done. by exists r.
      * intros rid r' Hr'. world_simpl_in Hr'.
        destruct (decide (rid0 = rid)) as [-> | Hne].
        -- rewrite lookup_alter_eq in Hr'.
           destruct (runs w !! rid) as [r |] eqn:Hr; [| done].
           exists r. split; [done |]. cbn in Hr'. inversion Hr'; subst. cbn.
           intros Hc. destruct Hord as (_ & H2 & _).
           destruct (H2 _ _ _ _ _ _ _ Hid eq_refl) as (r0 & Hr0 & Hc0). congruence.
        -- rewrite lookup_alter_ne in Hr' by done. by exists r'.
    + apply (orderly_update w); [done | cbn; lia | | |].
      * intros id' t label' c' final' f' rid H Hcb. left. world_simpl_in H.
        apply lookup_delete_Some in H as [_ H]. by eapply Hold.
      * intros rid r Hr Hc. by exists r.
      * intros rid r' Hr'. by exists r'.
    + apply (orderly_update w); [done | cbn; lia | | |].
      * intros id' t label' c' final' f' rid H Hcb. left. world_simpl_in H.
        by eapply Hold.
      * intros rid r Hr Hc. by exists r.
      * intros rid r' Hr'. by exists r'.
Qed.

Lemma orderly_on_data rid text isStderr w :
  orderly w -> orderly (on_data rid text isStderr w).
Proof.
  intros Hord.
  destruct (quiet_on_data rid text isStderr w) as (_ & _ & Ht & Hn & _ & Hq & Hnone).
  apply (orderly_update w); [done | lia | | |].
  - intros id t label c final f rid' H Hcb. left. rewrite Ht in H.
    by exists id, t, label, c, final, f.
  - intros rid' r Hr Hc. destruct (Hq _ _ Hr) as (r' & Hr' & Hs).
    exists r'. split; [done |]. destruct Hs as (_ & _ & _ & _ & _ & Hch & _). congruence.
  - intros rid' r' Hr'. destruct (runs w !! rid') as [r |] eqn:Hr.
    + destruct (Hq _ _ Hr) as (r'' & Hr'' & Hs). rewrite Hr' in Hr''.
      inversion Hr''; subst. exists r. split; [done |].
      destruct Hs as (_ & _ & _ & _ & _ & Hch & Hp). intros Hc. split; congruence.
    + rewrite (Hnone _ Hr) in Hr'. discriminate.
Qed.

Lemma orderly_on_close rid code w :
  orderly w -> orderly (on_close chalk options rid code w).
Proof.
  intros Hord. destruct (runs w !! rid) as [r |] eqn:Hr;
    [| unfold on_close; by rewrite Hr].
  destruct (run_child r) eqn:Hchild; [| unfold on_close; by rewrite Hr, Hchild].
  assert (Hruns : forall r0 : Run E,
            run_child r0 = false ->
            (forall rid' r1, runs w !! rid' = Some r1 -> run_child r1 = false ->
               exists r', <[rid := r0]> (runs w) !! rid' = Some r' /\ run_child r' = false)
            /\ (forall rid' r', <[rid := r0]> (runs w) !! rid' = Some r' ->
                  exists r1, runs w !! rid' = Some r1
                    /\ (run_child r' = true ->
                        run_child r1 = true /\ run_promise r' = run_promise r1))).
  { intros r0 Hc0. split.
    - intros rid' r1 Hr1 Hc1. destruct (decide (rid = rid')) as [-> | Hne].
      + rewrite lookup_insert_eq. by exists r0.
      + rewrite lookup_insert_ne by done. by exists r1.
    - intros rid' r' Hr'. destruct (decide (rid = rid')) as [-> | Hne].
      + rewrite lookup_insert_eq in Hr'. inversion Hr'; subst.
        exists r. split; [done |]. congruence.
      + rewrite lookup_insert_ne in Hr' by done. by exists r'. }
  destruct (tolerated code r (user w)) eqn:Hok.
  - destruct (on_close_ok chalk options rid r code w Hr Hchild Hok)
      as (Ht & _ & _ & _ & Hrs & Hn & _).
    destruct (Hruns (set_run_child false r) eq_refl) as [Hfwd Hback].
    apply (orderly_update w); [done | lia | | |].
    + intros id t label c final f rid' H Hcb. rewrite Ht in H.
      apply lookup_insert_Some in H as [[<- <-] | [_ H]].
      * right. cbn in Hcb. inversion Hcb; subst. rewrite Hrs, lookup_insert_eq.
        by eexists.
      * left. apply timers_at_exit_Some in H. by exists id, t, label, c, final, f.
    + rewrite Hrs. exact Hfwd.
    + rewrite Hrs. exact Hback.
  - destruct (on_close_failed chalk options rid r code w Hr Hchild Hok)
      as (Ht & _ & _ & _ & Hrs & Hn & _).
    destruct (Hruns (set_run_promise (Rejected (CommandFailed code))
                       (set_run_child false r)) eq_refl) as [Hfwd Hback].
    apply (orderly_update w); [done | lia | | |].
    + intros id t label c final f rid' H Hcb. rewrite Ht in H.
      left. apply timers_at_exit_Some in H. by exists id, t, label, c, final, f.
    + rewrite Hrs. exact Hfwd.
    + rewrite Hrs. exact Hback.
Qed.

Lemma orderly_step (e : Event E) w :
  orderly w -> orderly (step chalk options Math_exp_rational e w).
Proof.
  intros Hord.
  destruct e as [label pct | label | label | label | label | label initialPct
                | h v | h | label currentPct finalLabel | o | o
                | id' | rid text | rid text | rid code | ms | f]; cbn [step].
  - exact (orderly_same w _ eq_refl eq_refl eq_refl Hord).
  - exact (orderly_same w _ eq_refl eq_refl eq_refl Hord).
  - exact (orderly_same w _ eq_refl eq_refl eq_refl Hord).
  - exact (orderly_same w _ eq_refl eq_refl eq_refl Hord).
  - exact (orderly_same w _ eq_refl eq_refl eq_refl Hord).
  - apply (orderly_grow w); [done | cbn; lia | | by left | done].
    intros id t H. cbn in H. apply lookup_insert_Some in H as [[<- <-] | [_ H]];
      [by right | by left].
  - exact (orderly_same w _ eq_refl eq_refl eq_refl Hord).
  - apply (orderly_grow w); [done | cbn; lia | | by left | done].
    intros id t H. cbn in H. apply lookup_delete_Some in H as [_ H]. by left.
  - apply (orderly_grow w); [done | cbn; lia | | by left | done].
    intros id t H. cbn in H. apply lookup_insert_Some in H as [[<- <-] | [_ H]];
      [by right | by left].
  - pose proof Hord as (_ & _ & H3).
    apply (orderly_grow w); [done | cbn; lia | | |].
    + intros id t H. cbn in H.
      apply lookup_insert_Some in H as [[<- <-] | [_ H]]; [by right |].
      apply lookup_insert_Some in H as [[<- <-] | [_ H]]; [by right | by left].
    + intros rid r H. cbn in H.
      apply lookup_insert_Some in H as [[<- <-] | [_ H]]; [right | by left].
      cbn. split; [lia | done].
    + intros rid r H. cbn. specialize (H3 _ _ H). by rewrite lookup_insert_ne by lia.
  - pose proof Hord as (_ & _ & H3).
    apply (orderly_grow w); [done | cbn; lia | | |].
    + intros id t H. cbn in H.
      apply lookup_insert_Some in H as [[<- <-] | [_ H]]; [by right | by left].
    + intros rid r H. cbn in H.
      apply lookup_insert_Some in H as [[<- <-] | [_ H]]; [right | by left].
      cbn. split; [lia | done].
    + intros rid r H. cbn. specialize (H3 _ _ H). by rewrite lookup_insert_ne by lia.
  - by apply orderly_fire.
  - by apply orderly_on_data.
  - by apply orderly_on_data.
  - by apply orderly_on_close.
  - exact (orderly_same w _ eq_refl eq_refl eq_refl Hord).
  - exact (orderly_same w _ eq_refl eq_refl eq_refl Hord).
Qed.

Lemma orderly_exec (events : list (Event E)) w :
  orderly w -> orderly (exec chalk options Math_exp_rational events w).
Proof.
  revert w. induction events as [| e events IH]; intros w Hord; [done |].
  cbn [exec fold_left]. apply IH. by apply orderly_step.
Qed.

(** X17. No promise settles before its child has closed: in every state the
    engine can reach from [createProgress], whatever the calls, timer
    firings and child events that led there and however the runs
    interleave, a run whose child has not closed is pending (so a run that
    is fulfilled or rejected has seen its child close), and a snap that a run
    awaits belongs to a run whose child has closed. *)
Theorem promise_settles_only_after_close (events : list (Event E)) (t0 : Z) (u : E) :
  let w := exec chalk options Math_exp_rational events (createProgress t0 u) in
  (forall rid r, runs w !! rid = Some r -> run_child r = true -> run_promise r = Pending)
  /\ (forall rid r, runs w !! rid = Some r -> run_promise r <> Pending ->
        run_child r = false)
  /\ (forall id t label c final f rid,
        timers w !! id = Some t ->
        timer_callback t = SnapTick label c final f (Some rid) ->
        exists r, runs w !! rid = Some r /\ run_child r = false).
Proof.
  intros w.
  destruct (orderly_exec events _ (orderly_createProgress t0 u)) as (H1 & H2 & _).
  fold w in H1, H2. split; [exact H1 |]. split; [| exact H2].
  intros rid r Hr Hp. destruct (run_child r) eqn:Hc; [| done].
  by destruct (Hp (H1 _ _ Hr Hc)).
Qed.

End Promises.

(** ** The spinner and ratios that are not finite *)

Section Spinner.

Variable chalk : Chalk.
Variable options : Options.

(** X18. The spinner cycles through [spinnerFrames]: paints whose indices
    differ by a multiple of the number of frames show the same frame; with
    an empty list of frames every paint shows [undefined]. *)
Theorem spinner_cycles (i k : nat) :
  spinner_frame options (i + k * length (spinnerFrames options)) = spinner_frame options i
  /\ (spinnerFrames options = [] -> spinner_frame options i = "undefined").
Proof.
  split.
  - unfold spinner_frame. destruct (spinnerFrames options) as [| s frames] eqn:Hs.
    + by rewrite !lookup_nil.
    + by rewrite Nat.Div0.mod_add.
  - intros Hs. unfold spinner_frame. by rewrite Hs, lookup_nil.
Qed.

(** X19. Ratios that are not finite: [Infinity] draws the full bar next to
    [Infinity%], [-Infinity] the empty bar next to [-Infinity%], and NaN a
    bar without any segment. *)
Theorem renderBar_not_finite :
  renderBar chalk options PosInf
  = cyan chalk (repeat_string (filledChar options) (barWidth options))
    +:+ dim chalk EmptyString
  /\ renderBar chalk options NegInf
     = cyan chalk EmptyString
       +:+ dim chalk (repeat_string (emptyChar options) (barWidth options))
  /\ renderBar chalk options NaN = cyan chalk EmptyString +:+ dim chalk EmptyString
  /\ (forall idx label,
        paint_text chalk options idx label PosInf
        = CR_ERASE_LINE +:+ pad options +:+ cyan chalk (spinner_frame options idx)
          +:+ " " +:+ label +:+ "  " +:+ renderBar chalk options PosInf
          +:+ "  " +:+ dim chalk "Infinity%")
  /\ (forall idx label,
        paint_text chalk options idx label NegInf
        = CR_ERASE_LINE +:+ pad options +:+ cyan chalk (spinner_frame options idx)
          +:+ " " +:+ label +:+ "  " +:+ renderBar chalk options NegInf
          +:+ "  " +:+ dim chalk "-Infinity%").
Proof.
  split; [| split; [| split; [reflexivity | split; reflexivity]]].
  - rewrite <- (renderBar_full chalk options 1) by lra. reflexivity.
  - rewrite <- (renderBar_empty chalk options 0) by lra. reflexivity.
Qed.

End Spinner.

(** ** The further properties at concrete inputs *)

Lemma renderBar_monotone_and_saturating_witness :
  (1 <= 3 # 2)%Q
  /\ renderBar chalk_plain default_options (Num 1)
     = cyan chalk_plain (repeat_string "━" 24) +:+ dim chalk_plain EmptyString.
Proof.
  assert (H : (1 <= 3 # 2)%Q) by lra.
  split; [exact H |].
  pose proof (renderBar_monotone_and_saturating chalk_plain default_options 1 (3 # 2) H) as T.
  destruct T as (_ & _ & _ & _ & Hfull). apply Hfull. lra.
Defined.


Lemma stderr_accumulates_in_order_witness :
  runs demo_world !! 2%nat = Some demo_run
  /\ run_child demo_run = true
  /\ exists r1,
       runs (exec chalk_plain default_options exp_poly
               (map (chunk_event 2) demo_chunks) demo_world) !! 2%nat = Some r1
       /\ run_stderr r1 = "warn: ab".
Proof.
  assert (H1 : runs demo_world !! 2%nat = Some demo_run) by (vm_compute; reflexivity).
  split; [exact H1 |]. split; [reflexivity |].
  destruct (@stderr_accumulates_in_order bool chalk_plain default_options exp_poly
              2%nat demo_run demo_chunks 1%Z demo_world H1 eq_refl)
    as (r1 & Hr1 & Hs & _).
  exists r1. split; [exact Hr1 | exact Hs].
Defined.

Lemma estimated_run_ignores_output_witness :
  runs estimated_world !! 3%nat = Some demo_estimated_run
  /\ run_child demo_estimated_run = true
  /\ run_mode demo_estimated_run = Estimated 2
  /\ pcts (exec chalk_plain default_options exp_poly
             (map (chunk_event 3) demo_chunks) estimated_world)
     = pcts estimated_world.
Proof.
  assert (H1 : runs estimated_world !! 3%nat = Some demo_estimated_run)
    by (vm_compute; reflexivity).
  split; [exact H1 |]. split; [reflexivity |]. split; [reflexivity |].
  pose proof (@estimated_run_ignores_output bool chalk_plain default_options exp_poly
                3%nat demo_estimated_run 2%nat demo_chunks estimated_world
                H1 eq_refl eq_refl) as T.
  cbv zeta in T. destruct T as (Hp & _). exact Hp.
Defined.

Lemma chunks_move_only_their_bar_witness :
  runs demo_world !! 2%nat = Some demo_run
  /\ h_pct {| h_pct := 5; h_timer := 6 |} <> h_pct (run_render demo_run)
  /\ getPct {| h_pct := 5; h_timer := 6 |}
       (exec chalk_plain default_options exp_poly
          (map (chunk_event 2) demo_chunks) demo_world)
     = getPct {| h_pct := 5; h_timer := 6 |} demo_world.
Proof.
  assert (H1 : runs demo_world !! 2%nat = Some demo_run) by (vm_compute; reflexivity).
  assert (H2 : h_pct {| h_pct := 5; h_timer := 6 |} <> h_pct (run_render demo_run))
    by (cbn; lia).
  split; [exact H1 |]. split; [exact H2 |].
  exact (@chunks_move_only_their_bar bool chalk_plain default_options exp_poly
           2%nat demo_run demo_chunks demo_world H1 _ H2).
Defined.

Lemma increment_needs_truthy_total_witness :
  runs zero_total_world !! 2%nat = Some demo_zero_total_run
  /\ run_mode demo_zero_total_run
     = Tracked (Some (Number.of_Z 0)) (Some demo_observe) None
  /\ pcts (Nat.iter 3 (increment 2) zero_total_world) = pcts zero_total_world
  /\ run_completed <$> runs (Nat.iter 3 (increment 2) zero_total_world) !! 2%nat
     = Some 3%nat.
Proof.
  assert (H1 : runs zero_total_world !! 2%nat = Some demo_zero_total_run)
    by (vm_compute; reflexivity).
  assert (H3 : Some (Number.of_Z 0) = None \/ Some (Number.of_Z 0) = Some NaN
               \/ exists q, (q == 0)%Q /\ Some (Number.of_Z 0) = Some (Num q)).
  { right. right. exists (inject_Z 0). split; reflexivity. }
  split; [exact H1 |]. split; [reflexivity |].
  exact (@increment_needs_truthy_total bool 2%nat demo_zero_total_run _ _ _
           zero_total_world H1 eq_refl H3 3%nat).
Defined.

Lemma increments_fill_the_bar_witness :
  runs demo_world !! 2%nat = Some demo_run
  /\ run_mode demo_run
     = Tracked (Some (Number.of_Z 10)) (Some demo_observe) (Some demo_parse)
  /\ (0 < 10)%Z /\ (0 < 10)%nat
  /\ getPct demo_handle (Nat.iter 10 (increment 2) demo_world)
     = Num (inject_Z 10 / inject_Z 10)
  /\ renderBar chalk_plain default_options (Num (inject_Z 10 / inject_Z 10))
     = cyan chalk_plain (repeat_string "━" 24) +:+ dim chalk_plain EmptyString.
Proof.
  assert (H1 : runs demo_world !! 2%nat = Some demo_run) by (vm_compute; reflexivity).
  assert (H3 : (0 < 10)%Z) by lia.
  assert (H4 : (0 < 10)%nat) by lia.
  split; [exact H1 |]. split; [reflexivity |]. split; [exact H3 |]. split; [exact H4 |].
  pose proof (@increments_fill_the_bar bool chalk_plain default_options
                2%nat demo_run 10%Z _ _ demo_world 10%nat H1 eq_refl H3 H4) as T.
  cbv zeta in T. destruct T as (Hratio & Hfull & _).
  split; [exact Hratio |]. apply Hfull. cbn. lia.
Defined.

Lemma closed_run_timers_stay_cleared_witness :
  runs estimated_world !! 3%nat = Some demo_estimated_run
  /\ run_child demo_estimated_run = true
  /\ (h_timer (run_render demo_estimated_run) < next estimated_world)%nat
  /\ (forall pctInterval,
        run_mode demo_estimated_run = Estimated pctInterval ->
        (pctInterval < next estimated_world)%nat)
  /\ (let w' := exec chalk_plain default_options exp_poly [Elapse 30; Fire 4]
                  (on_close chalk_plain default_options 3 0 estimated_world) in
      fire chalk_plain default_options exp_poly 1 w' = w'
      /\ fire chalk_plain default_options exp_poly 2 w' = w').
Proof.
  assert (H1 : runs estimated_world !! 3%nat = Some demo_estimated_run)
    by (vm_compute; reflexivity).
  assert (H3 : (h_timer (run_render demo_estimated_run) < next estimated_world)%nat)
    by (vm_compute; lia).
  assert (H4 : forall pctInterval,
             run_mode demo_estimated_run = Estimated pctInterval ->
             (pctInterval < next estimated_world)%nat).
  { intros p Hp. inversion Hp; subst. vm_compute. lia. }
  split; [exact H1 |]. split; [reflexivity |]. split; [exact H3 |]. split; [exact H4 |].
  pose proof (@closed_run_timers_stay_cleared bool chalk_plain default_options exp_poly
                3%nat demo_estimated_run 0%Z [Elapse 30; Fire 4] estimated_world
                H1 eq_refl H3 H4) as T.
  cbv zeta in T. destruct T as (Hrender & Hsampler).
  cbv zeta. split; [exact Hrender | exact (Hsampler 2%nat eq_refl)].
Defined.

Lemma zero_estimate_jumps_to_ninety_witness :
  e_estimatedMs demo_zero_estimate = Num (inject_Z 0)
  /\ (inject_Z 0 == 0)%Q /\ (0 < 200)%Z
  /\ Number.eqv
       (getPct demo_handle
          (fire chalk_plain default_options exp_poly 2
             (step chalk_plain default_options exp_poly (Elapse 200)
                (snd (runEstimated chalk_plain default_options demo_zero_estimate world0)))))
       (Num (9 # 10)).
Proof.
  assert (H2 : (inject_Z 0 == 0)%Q) by reflexivity.
  assert (H3 : (0 < 200)%Z) by lia.
  split; [reflexivity |]. split; [exact H2 |]. split; [exact H3 |].
  pose proof (@zero_estimate_jumps_to_ninety bool chalk_plain default_options exp_poly
                demo_zero_estimate (inject_Z 0) 200%Z world0 eq_refl H2 H3) as T.
  cbv zeta in T. destruct T as (_ & Hjump & _). exact Hjump.
Defined.

Lemma parsed_run_from_launch_to_success_witness :
  well_formed world0
  /\ t_parseProgress demo_parsed = Some demo_parse
  /\ t_onOutput demo_parsed = None
  /\ (let launched := runTracked chalk_plain default_options demo_parsed world0 in
      let rid := fst launched in
      let w2 := exec chalk_plain default_options exp_poly
                  (map (chunk_event rid) demo_chunks) (snd launched) in
      let w3 := Nat.iter totalFrames
                  (fire chalk_plain default_options exp_poly (next w2))
                  (on_close chalk_plain default_options rid 0 w2) in
      run_promise <$> runs w3 !! rid = Some Fulfilled
      /\ timers w3 = timers world0).
Proof.
  assert (H1 : well_formed world0) by apply well_formed_createProgress.
  split; [exact H1 |]. split; [reflexivity |]. split; [reflexivity |].
  pose proof (@parsed_run_from_launch_to_success bool chalk_plain default_options exp_poly
                demo_parsed demo_parse demo_chunks world0 H1 eq_refl eq_refl) as T.
  cbv zeta in T. destruct T as (_ & Hprom & Htimers).
  cbv zeta. split; [exact Hprom | exact Htimers].
Defined.
